(** * Slack user lookup and Slack block building for pull-request notifications

    A shallow embedding of [.github/scripts/slack-user-lookup.js] and the
    properties of its resolver, mention processor, image extraction and block
    builders.

    Modelling conventions.
    - A JavaScript string is the list of its UTF-16 code units ([str]).
    - A regular expression literal is a term of [regex], run by a backtracking
      matcher that tries alternatives in the order ECMAScript does.
    - [undefined]/[null] property values are [None]; the operator [||] is
      [or_else] over that representation.
    - The outside world (Slack and GitHub REST endpoints, [JSON.parse], the
      members that a parsed value inherits or holds by index, [toLowerCase])
      is a record [Env] of oracles.  An endpoint oracle sees the events so
      far, so two calls with the same arguments may answer differently.
      Every call and every log line is recorded as an [event]. *)

From Stdlib Require Import List NArith ZArith String Ascii Bool Arith Lia DecimalString.
Import ListNotations.

Set Implicit Arguments.

Local Abbreviation length := List.length (only parsing).

(* ------------------------------------------------------------------------- *)
(** ** Strings as sequences of code units *)

Module JsString.

Definition str := list N.

(** An ASCII literal of the source. *)
Definition lit (s : string) : str := map N_of_ascii (list_ascii_of_string s).

Fixpoint str_eqb (a b : str) : bool :=
  match a, b with
  | [], [] => true
  | x :: a', y :: b' => N.eqb x y && str_eqb a' b'
  | _, _ => false
  end.

(** [String.prototype.startsWith] at position 0. *)
Fixpoint startsWith (s p : str) : bool :=
  match p, s with
  | [], _ => true
  | x :: p', y :: s' => N.eqb x y && startsWith s' p'
  | _ :: _, [] => false
  end.

(** [String.prototype.includes]. *)
Fixpoint includes (s p : str) : bool :=
  startsWith s p ||
  match s with
  | [] => false
  | _ :: s' => includes s' p
  end.

(** Code units that are WhiteSpace or LineTerminator: the set removed by
    [trim] and matched by the class escape [\s]. *)
Definition isSpace (c : N) : bool :=
  ((9 <=? c) && (c <=? 13) || (c =? 32) || (c =? 160) || (c =? 5760)
   || (8192 <=? c) && (c <=? 8202) || (c =? 8232) || (c =? 8233)
   || (c =? 8239) || (c =? 8287) || (c =? 12288) || (c =? 65279))%N.

Fixpoint trimStart (s : str) : str :=
  match s with
  | c :: s' => if isSpace c then trimStart s' else s
  | [] => []
  end.

Definition trimEnd (s : str) : str := rev (trimStart (rev s)).

(** [String.prototype.trim]. *)
Definition trim (s : str) : str := trimEnd (trimStart s).

(** [Array.prototype.join]. *)
Fixpoint join (sep : str) (l : list str) : str :=
  match l with
  | [] => []
  | [x] => x
  | x :: l' => x ++ sep ++ join sep l'
  end.

(** Decimal rendering of an array length inside a template literal. *)
Definition ofNat (n : nat) : str := lit (NilZero.string_of_uint (Nat.to_uint n)).

(** A string is truthy when it is not empty. *)
Definition nonEmpty (s : str) : bool :=
  match s with [] => false | _ :: _ => true end.

End JsString.
Export JsString.

(* ------------------------------------------------------------------------- *)
(** ** Regular expressions

    The constructs used by the patterns of the script: a single character
    test, concatenation, a greedy quantifier over a character test, the word
    boundary assertion and a capturing group. *)

Module RegExp.

Inductive regex : Type :=
| Eps
| Chr (p : N -> bool)
| Cat (a b : regex)
| Rep (p : N -> bool) (lo : nat) (hi : option nat)
| WordB
| Cap (a : regex).

(** The matcher state: the text before the cursor (nearest code unit first),
    the text from the cursor on, and the captures completed so far. *)
Record mstate : Type := MState {
  seen : str;
  rest : str;
  caps : list str
}.

Definition below (n : nat) (hi : option nat) : bool :=
  match hi with
  | None => true
  | Some h => n <? h
  end.

(** Greedy repetition: take one more code unit when allowed, and fall back to
    stopping here when the continuation fails further on. *)
Fixpoint rep (A : Type) (p : N -> bool) (lo : nat) (hi : option nat) (n : nat)
    (sn s : str) (k : str -> str -> option A) : option A :=
  let stop := if lo <=? n then k sn s else None in
  match s with
  | c :: s' =>
      if p c && below n hi then
        match rep p lo hi (S n) (c :: sn) s' k with
        | Some r => Some r
        | None => stop
        end
      else stop
  | [] => stop
  end.

(** [\w] without the unicode flag. *)
Definition isWordChar (c : N) : bool :=
  ((97 <=? c) && (c <=? 122) || (65 <=? c) && (c <=? 90)
   || (48 <=? c) && (c <=? 57) || (c =? 95))%N.

Definition wordAt (s : str) : bool :=
  match s with
  | c :: _ => isWordChar c
  | [] => false
  end.

Fixpoint run (A : Type) (r : regex) (st : mstate) (k : mstate -> option A)
    : option A :=
  match r with
  | Eps => k st
  | Chr p =>
      match rest st with
      | c :: s' => if p c then k (MState (c :: seen st) s' (caps st)) else None
      | [] => None
      end
  | Cat a b => run a st (fun st' => run b st' k)
  | Rep p lo hi =>
      rep p lo hi 0 (seen st) (rest st) (fun sn s => k (MState sn s (caps st)))
  | WordB => if xorb (wordAt (seen st)) (wordAt (rest st)) then k st else None
  | Cap a =>
      run a st (fun st' =>
        let n := length (seen st') - length (seen st) in
        k (MState (seen st') (rest st') (caps st' ++ [rev (firstn n (seen st'))])))
  end.

(** One attempt at the current position. *)
Definition exec (r : regex) (sn s : str) : option mstate :=
  run r (MState sn s []) (fun st => Some st).

(** A successful match: its text, captures, and the text on both sides. *)
Record rmatch : Type := RMatch {
  m_text : str;
  m_caps : list str;
  m_before : str;
  m_after : str
}.

Definition mkMatch (sn s : str) (st : mstate) : rmatch :=
  RMatch (firstn (length s - length (rest st)) s) (caps st) (rev sn) (rest st).

(** [RegExp.prototype.exec] without the global flag: the leftmost match. *)
Fixpoint search (r : regex) (sn s : str) : option rmatch :=
  match exec r sn s with
  | Some st => Some (mkMatch sn s st)
  | None =>
      match s with
      | [] => None
      | c :: s' => search r (c :: sn) s'
      end
  end.

(** [String.prototype.match] with a pattern that has no global flag. *)
Definition matchFirst (r : regex) (s : str) : option rmatch := search r [] s.

(** The global scan shared by [matchAll], [match] and [replace] with the [g]
    flag.  [skip] counts the code units of the current match still to be
    passed over; after an empty match the scan advances by one code unit. *)
Inductive piece : Type :=
| Lit (c : N)
| Hit (m : rmatch).

Fixpoint scan (r : regex) (skip : nat) (sn s : str) : list piece :=
  match s with
  | [] =>
      match skip with
      | 0 =>
          match exec r sn [] with
          | Some st => [Hit (mkMatch sn [] st)]
          | None => []
          end
      | S _ => []
      end
  | c :: s' =>
      match skip with
      | S k => scan r k (c :: sn) s'
      | 0 =>
          match exec r sn s with
          | Some st =>
              match length s - length (rest st) with
              | 0 => Hit (mkMatch sn s st) :: Lit c :: scan r 0 (c :: sn) s'
              | S k => Hit (mkMatch sn s st) :: scan r k (c :: sn) s'
              end
          | None => Lit c :: scan r 0 (c :: sn) s'
          end
      end
  end.

Fixpoint hits (l : list piece) : list rmatch :=
  match l with
  | [] => []
  | Lit _ :: l' => hits l'
  | Hit m :: l' => m :: hits l'
  end.

(** [[...s.matchAll(r)]] and the matches behind [s.match(r)] for a global [r]. *)
Definition matchAll (r : regex) (s : str) : list rmatch := hits (scan r 0 [] s).

(** GetSubstitution for a pattern without named groups: [$$], [$&], [$`],
    [$'], and [$n] or [$nn] for an existing capture are expanded; anything
    else is copied. *)
Definition digitVal (c : N) : option nat :=
  if ((48 <=? c) && (c <=? 57))%N then Some (N.to_nat c - 48) else None.

Definition capAt (m : rmatch) (n : nat) : option str :=
  match n with
  | 0 => None
  | S i => nth_error (m_caps m) i
  end.

Fixpoint getSubstitution (m : rmatch) (t : str) : str :=
  match t with
  | 36%N :: t1 =>
      match t1 with
      | 36%N :: t2 => 36%N :: getSubstitution m t2
      | 38%N :: t2 => m_text m ++ getSubstitution m t2
      | 96%N :: t2 => m_before m ++ getSubstitution m t2
      | 39%N :: t2 => m_after m ++ getSubstitution m t2
      | d1 :: t2 =>
          let oneDigit :=
            match digitVal d1 with
            | Some i =>
                match capAt m i with
                | Some c => c ++ getSubstitution m t2
                | None => 36%N :: getSubstitution m t1
                end
            | None => 36%N :: getSubstitution m t1
            end in
          match t2 with
          | d2 :: t3 =>
              match digitVal d1, digitVal d2 with
              | Some i, Some j =>
                  match capAt m (10 * i + j) with
                  | Some c => c ++ getSubstitution m t3
                  | None => oneDigit
                  end
              | _, _ => oneDigit
              end
          | [] => oneDigit
          end
      | [] => [36%N]
      end
  | c :: t1 => c :: getSubstitution m t1
  | [] => []
  end.

Fixpoint substitute (t : str) (l : list piece) : str :=
  match l with
  | [] => []
  | Lit c :: l' => c :: substitute t l'
  | Hit m :: l' => getSubstitution m t ++ substitute t l'
  end.

(** [s.replace(r, t)] for a global [r] and a replacement string [t]. *)
Definition replaceAll (r : regex) (t : str) (s : str) : str :=
  substitute t (scan r 0 [] s).

(** Pattern building blocks. *)
Definition isChar (c : N) : N -> bool := fun x => N.eqb x c.

(** A pattern character under the [i] flag (without [u]): an ASCII letter
    matches itself in either case; no code unit above 127 folds to ASCII. *)
Definition isCI (c : N) : N -> bool :=
  fun x => N.eqb x c ||
    (if ((97 <=? c) && (c <=? 122))%N then N.eqb x (c - 32) else false) ||
    (if ((65 <=? c) && (c <=? 90))%N then N.eqb x (c + 32) else false).

Fixpoint chars (f : N -> N -> bool) (s : str) : regex :=
  match s with
  | [] => Eps
  | c :: s' => Cat (Chr (f c)) (chars f s')
  end.

End RegExp.
Export RegExp.

(* ------------------------------------------------------------------------- *)
(** ** Data model *)

(** [SlackUser.profile]. *)
Record SlackProfile : Type := {
  display_name : option str;
  image_original : option str;
  image_512 : option str;
  image_192 : option str;
  image_72 : option str
}.

(** A member record of the Slack directory.  The fields the script reads
    through [?.] may be missing; a missing [deleted] or [is_bot] flag reads as
    [false]. *)
Record SlackUser : Type := {
  id : str;
  name : option str;
  real_name : option str;
  profile : option SlackProfile;
  deleted : bool;
  is_bot : bool
}.

(** The [data] of [github.rest.users.getByUsername]. *)
Record GitHubUser : Type := {
  login : str;
  gh_name : option str;
  email : option str
}.

(** The result of [getSlackUserProfile]. *)
Record SlackUserProfile : Type := {
  username : option str;
  icon_url : option str;
  matched : bool
}.

(** What [JSON.parse] yields for the user mapping, and what reading a
    property of it may give.  [JNative] is a value that no JSON text denotes:
    a function or an object of the engine reached through the prototype chain
    (as [mapping.constructor] or [mapping.toString]); it carries the text it
    converts to inside a template literal. *)
#[warnings="-register-all"]
Inductive json : Type :=
| JNull
| JBool (b : bool)
| JNum (z : Z)
| JStr (s : str)
| JArr (l : list json)
| JObj (l : list (str * json))
| JNative (text : str).

Definition truthy (v : json) : bool :=
  match v with
  | JNull => false
  | JBool b => b
  | JNum z => negb (Z.eqb z 0)
  | JStr s => nonEmpty s
  | JArr _ | JObj _ | JNative _ => true
  end.

(** Truthiness of a possibly missing string. *)
Definition truthyS (o : option str) : bool :=
  match o with
  | Some s => nonEmpty s
  | None => false
  end.

(** [a || b] on possibly missing strings. *)
Definition or_else (a b : option str) : option str :=
  if truthyS a then a else b.

Fixpoint assoc (k : str) (l : list (str * json)) : option json :=
  match l with
  | [] => None
  | (k', v) :: l' => if str_eqb k k' then Some v else assoc k l'
  end.

(** A Slack block of the three shapes the builders emit:
    [{type: 'section', text: {type: 'mrkdwn', text}}],
    [{type: 'image', image_url, alt_text}] and
    [{type: 'context', elements: [{type: 'mrkdwn', text}]}]. *)
Inductive SlackBlock : Type :=
| SectionBlock (text : str)
| ImageBlock (image_url alt_text : str)
| ContextBlock (text : str).

(* ------------------------------------------------------------------------- *)
(** ** The outside world and the effects of the script *)

(** The outcome of a call that may throw: [Fail] carries [err.message].  For
    an endpoint it stands for a network error, a body that is not JSON, and a
    body of an unexpected shape (which throws at the first property access,
    inside the same [try] as the call). *)
Inductive api (A : Type) : Type :=
| Fail (msg : str)
| Resp (a : A).
Arguments Fail {A} msg.
Arguments Resp {A} a.

(** The JSON body of [users.info] and [users.lookupByEmail]. *)
Record UserResp : Type := {
  ur_ok : bool;
  ur_user : option SlackUser
}.

(** The JSON body of [users.list]. *)
Record ListResp : Type := {
  lr_ok : bool;
  lr_members : option (list SlackUser)
}.

Inductive event : Type :=
| EvUsersInfo (user : json) (r : api UserResp)
| EvGetByUsername (u : str) (r : api GitHubUser)
| EvLookupByEmail (mail : str) (r : api UserResp)
| EvUsersList (r : api ListResp)
| EvInfo (msg : str)
| EvWarning (msg : str).

Record Env : Type := {
  JSON_parse : str -> api json;
  (** [inherited v key]: what [v[key]] reads when [key] is not a key written
      in the parsed object text: a member of the prototype chain, or an index
      or the [length] of an array or a string; [None] is [undefined]. *)
  inherited : json -> str -> option json;
  toLowerCase : str -> str;
  (** GET https://slack.com/api/users.info?user=<id>, by bearer token and id *)
  slack_users_info : list event -> str -> json -> api UserResp;
  github_getByUsername : list event -> str -> api GitHubUser;
  (** POST https://slack.com/api/users.lookupByEmail, by bearer token and email *)
  slack_lookupByEmail : list event -> str -> str -> api UserResp;
  (** GET https://slack.com/api/users.list, by bearer token *)
  slack_users_list : list event -> str -> api ListResp
}.

(** A computation reads the events so far and yields a value or a thrown
    error together with the events it adds. *)
Inductive result (A : Type) : Type :=
| Ret (a : A)
| Throw (msg : str).
Arguments Ret {A} a.
Arguments Throw {A} msg.

Definition M (A : Type) : Type := list event -> result A * list event.

Definition ret (A : Type) (a : A) : M A := fun _ => (Ret a, []).

Definition bind (A B : Type) (m : M A) (f : A -> M B) : M B :=
  fun h =>
    match m h with
    | (Ret a, e1) => let (r, e2) := f a (h ++ e1) in (r, e1 ++ e2)
    | (Throw msg, e1) => (Throw msg, e1)
    end.

(** [try { m } catch (err) { handler(err.message) }]. *)
Definition tryCatch (A : Type) (m : M A) (handler : str -> M A) : M A :=
  fun h =>
    match m h with
    | (Ret a, e1) => (Ret a, e1)
    | (Throw msg, e1) => let (r, e2) := handler msg (h ++ e1) in (r, e1 ++ e2)
    end.

(** An awaited call: the answer is recorded, a failure is thrown. *)
Definition call (A : Type) (ask : list event -> api A) (ev : api A -> event)
    : M A :=
  fun h =>
    match ask h with
    | Resp a => (Ret a, [ev (Resp a)])
    | Fail msg => (Throw msg, [ev (Fail msg)])
    end.

(** A pure builtin that may throw. *)
Definition lift (A : Type) (r : api A) : M A :=
  fun _ =>
    match r with
    | Resp a => (Ret a, [])
    | Fail msg => (Throw msg, [])
    end.

Definition info (msg : str) : M unit := fun _ => (Ret tt, [EvInfo msg]).
Definition warning (msg : str) : M unit := fun _ => (Ret tt, [EvWarning msg]).

Declare Scope js_scope.
Delimit Scope js_scope with js.
Notation "x <- m ;; k" := (bind m (fun x => k))
  (at level 61, m at next level, right associativity) : js_scope.
Notation "m ;; k" := (bind m (fun _ => k))
  (at level 61, right associativity) : js_scope.
Notation "'try' m 'catch' h" := (tryCatch m h)
  (at level 62, m at level 61, h at level 61) : js_scope.

(* ------------------------------------------------------------------------- *)
(** ** The script *)

Local Open Scope js_scope.

(** The code units written in the source file before each success message
    and between the parts of each context line. *)
Definition checkMark : str := [226; 339; 8220]%N.
Definition bullet : str := [226; 8364; 162]%N.

(** The arguments of [findSlackUser] that are data; [github] and [core] are
    the environment and the event log. *)
Record FindParams : Type := {
  githubUsername : str;
  slackToken : str;
  userMapping : option str
}.

Section Resolver.

Variable E : Env.

(** [mapping[githubUsername]]: reading a property of [null] throws; a key of
    a parsed object is looked up among its own properties first; any other
    read (a key the object does not hold, or a property of an array, a
    string, a number or a boolean) is answered by the engine: an inherited
    member, an index, a [length], or [undefined]. *)
Definition getProperty (mapping : json) (key : str) : api (option json) :=
  match mapping with
  | JNull => Fail (lit "Cannot read properties of null")
  | JObj l =>
      match assoc key l with
      | Some v => Resp (Some v)
      | None => Resp (inherited E mapping key)
      end
  | _ => Resp (inherited E mapping key)
  end.

(** The predicate passed to [listData.members.find]. *)
Definition nameMatches (githubName username : str) (member : SlackUser) : bool :=
  negb (deleted member) && negb (is_bot member) &&
  (match real_name member with
   | Some rn => includes (toLowerCase E rn) (toLowerCase E githubName)
   | None => false
   end
   ||
   match profile member with
   | Some pr =>
       match display_name pr with
       | Some dn => includes (toLowerCase E dn) (toLowerCase E githubName)
       | None => false
       end
   | None => false
   end
   ||
   match name member with
   | Some n => str_eqb (toLowerCase E n) (toLowerCase E username)
   | None => false
   end).

Definition msgManual (u : str) : str :=
  checkMark ++ lit " Matched " ++ u ++ lit " via manual mapping".
Definition msgByEmail (u : str) : str :=
  checkMark ++ lit " Matched " ++ u ++ lit " by email".
Definition msgByName (u : str) : str :=
  checkMark ++ lit " Matched " ++ u ++ lit " by name".

(** [findSlackUser].  A block yields [Some u] when the function returns [u]
    from inside it, and [None] when control runs off its end. *)
Definition findSlackUser (p : FindParams) : M (option SlackUser) :=
  let u := githubUsername p in
  try
    ((* 1. First check manual user mapping *)
     r1 <-
       (if truthyS (userMapping p) then
          try
            (mapping <- lift (JSON_parse E (match userMapping p with
                                           | Some s => s
                                           | None => []
                                           end)) ;;
             slackUserId <- lift (getProperty mapping u) ;;
             match slackUserId with
             | Some sid =>
                 if truthy sid then
                   userData <- call (fun h => slack_users_info E h (slackToken p) sid)
                                    (EvUsersInfo sid) ;;
                   match ur_ok userData, ur_user userData with
                   | true, Some user => info (msgManual u) ;; ret (Some user)
                   | _, _ => ret None
                   end
                 else ret None
             | None => ret None
             end)
          catch (fun msg =>
             warning (lit "Failed to parse user mapping: " ++ msg) ;; ret None)
        else ret None) ;;
     match r1 with
     | Some user => ret (Some user)
     | None =>
         (* 2. Get GitHub user info for fallback methods *)
         githubUser <- call (fun h => github_getByUsername E h u) (EvGetByUsername u) ;;
         (* 3. Try email lookup *)
         r2 <-
           (if truthyS (email githubUser) then
              try
                (emailData <- call (fun h => slack_lookupByEmail E h (slackToken p)
                                               (match email githubUser with
                                                | Some m => m
                                                | None => []
                                                end))
                                   (EvLookupByEmail (match email githubUser with
                                                     | Some m => m
                                                     | None => []
                                                     end)) ;;
                 match ur_ok emailData, ur_user emailData with
                 | true, Some user => info (msgByEmail u) ;; ret (Some user)
                 | _, _ => ret None
                 end)
              catch (fun msg =>
                 warning (lit "Email lookup failed: " ++ msg) ;; ret None)
            else ret None) ;;
         match r2 with
         | Some user => ret (Some user)
         | None =>
             (* 4. Fallback: Search by name *)
             listData <- call (fun h => slack_users_list E h (slackToken p)) EvUsersList ;;
             r3 <-
               match lr_ok listData, lr_members listData with
               | true, Some members =>
                   let githubName :=
                     if truthyS (gh_name githubUser)
                     then match gh_name githubUser with Some n => n | None => [] end
                     else login githubUser in
                   match find (nameMatches githubName u) members with
                   | Some slackUser => info (msgByName u) ;; ret (Some slackUser)
                   | None => ret None
                   end
               | _, _ => ret None
               end ;;
             match r3 with
             | Some user => ret (Some user)
             | None =>
                 warning (lit "Could not find Slack user for " ++ u) ;; ret None
             end
         end
     end)
  catch (fun msg =>
     warning (lit "Failed to lookup " ++ u ++ lit ": " ++ msg) ;; ret None).

(** [a?.f] followed by [|| ...] on the profile. *)
Definition profileField (f : SlackProfile -> option str) (u : SlackUser)
    : option str :=
  match profile u with
  | Some pr => f pr
  | None => None
  end.

(** [getSlackUserProfile]. *)
Definition getSlackUserProfile (slackUser : option SlackUser) : SlackUserProfile :=
  match slackUser with
  | None => {| username := Some []; icon_url := Some []; matched := false |}
  | Some u =>
      let displayName :=
        or_else (profileField display_name u) (or_else (real_name u) (name u)) in
      let avatar :=
        or_else (profileField image_original u)
          (or_else (profileField image_512 u)
             (or_else (profileField image_192 u) (profileField image_72 u))) in
      {| username := displayName; icon_url := avatar; matched := true |}
  end.

(** [/@([a-zA-Z0-9-]+)/g]. *)
Definition isMentionChar (c : N) : bool :=
  ((97 <=? c) && (c <=? 122) || (65 <=? c) && (c <=? 90)
   || (48 <=? c) && (c <=? 57) || (c =? 45))%N.

Definition mentionPattern : regex :=
  Cat (Chr (isChar 64)) (Cap (Rep isMentionChar 1 None)).

(** [new RegExp(`@${githubUsername}\\b`, 'g')].  A captured user name holds
    letters, digits and hyphens only, each of which is a literal pattern
    character. *)
Definition mentionRegExp (u : str) : regex :=
  Cat (chars isChar (64%N :: u)) WordB.

(** [`<@${slackUser.id}>`]. *)
Definition slackTag (u : SlackUser) : str := lit "<@" ++ id u ++ lit ">".

(** [match[1]]. *)
Definition group1 (m : rmatch) : str := nth 0 (m_caps m) [].

Record MentionParams : Type := {
  mp_text : str;
  mp_slackToken : str;
  mp_userMapping : option str
}.

(** The body of [for (const match of mentions)], threading [processedText]. *)
Fixpoint mentionLoop (p : MentionParams) (mentions : list rmatch)
    (processedText : str) : M str :=
  match mentions with
  | [] => ret processedText
  | m :: rest =>
      let u := group1 m in
      slackUser <- findSlackUser {| githubUsername := u;
                                    slackToken := mp_slackToken p;
                                    userMapping := mp_userMapping p |} ;;
      match slackUser with
      | Some su =>
          let processedText' :=
            replaceAll (mentionRegExp u) (slackTag su) processedText in
          info (checkMark ++ lit " Tagged " ++ u ++ lit " as " ++ slackTag su) ;;
          mentionLoop p rest processedText'
      | None => mentionLoop p rest processedText
      end
  end.

(** [processMentions]. *)
Definition processMentions (p : MentionParams) : M str :=
  let mentions := matchAll mentionPattern (mp_text p) in
  match mentions with
  | [] => ret (mp_text p)
  | _ :: _ =>
      info (lit "Found " ++ ofNat (length mentions) ++ lit " mention(s): "
            ++ join (lit ", ") (map group1 mentions)) ;;
      mentionLoop p mentions (mp_text p)
  end.

End Resolver.

(** [/<img\s+[^>]*\/?>/gi]. *)
Fixpoint patSeq (l : list regex) : regex :=
  match l with
  | [] => Eps
  | [r] => r
  | r :: l' => Cat r (patSeq l')
  end.

Definition notGt (c : N) : bool := negb (N.eqb c 62).
Definition isQuote (c : N) : bool := N.eqb c 34 || N.eqb c 39.
Definition notQuote (c : N) : bool := negb (isQuote c).

Definition imgTagPattern : regex :=
  patSeq [Chr (isChar 60); chars isCI (lit "img"); Rep isSpace 1 None;
       Rep notGt 0 None; Rep (isChar 47) 0 (Some 1); Chr (isChar 62)].

(** The patterns for [src] and [alt]: the attribute name and [=] in any letter
    case, a quote character (double or single), a captured run of one or more
    characters that are not quote characters, and a quote character. *)
Definition attrPattern (attr : str) : regex :=
  patSeq [chars isCI attr; Chr (isChar 61); Chr isQuote;
       Cap (Rep notQuote 1 None); Chr isQuote].

Definition srcPattern : regex := attrPattern (lit "src").
Definition altPattern : regex := attrPattern (lit "alt").

(** [/\n{3,}/g]. *)
Definition newlinesPattern : regex := Rep (isChar 10) 3 None.

Record ImageExtractionResult : Type := {
  textWithoutImages : str;
  imageBlocks : list SlackBlock
}.

(** The body of [for (const imgTag of matches)]: what it pushes. *)
Definition pushImage (blocks : list SlackBlock) (imgTag : str) : list SlackBlock :=
  let srcMatch := matchFirst srcPattern imgTag in
  let altMatch := matchFirst altPattern imgTag in
  match srcMatch with
  | Some sm =>
      if nonEmpty (group1 sm) then
        blocks ++ [ImageBlock (group1 sm)
                     (match altMatch with
                      | Some am => group1 am
                      | None => lit "Image"
                      end)]
      else blocks
  | None => blocks
  end.

(** [extractAndConvertImages]. *)
Definition extractAndConvertImages (text : str) : ImageExtractionResult :=
  let matches := map m_text (matchAll imgTagPattern text) in
  let imageBlocks := fold_left pushImage matches [] in
  let textWithoutImages :=
    trim (replaceAll newlinesPattern [10; 10]%N (replaceAll imgTagPattern [] text)) in
  {| textWithoutImages := textWithoutImages; imageBlocks := imageBlocks |}.

(** [buildCommentBlocks]. *)
Definition buildCommentBlocks (commentBody issueUrl issueTitle commentUrl
    commentAuthor : str) : list SlackBlock :=
  let r := extractAndConvertImages commentBody in
  let blocks := [] in
  let blocks :=
    if nonEmpty (textWithoutImages r)
    then blocks ++ [SectionBlock (textWithoutImages r)]
    else blocks in
  let blocks := blocks ++ imageBlocks r in
  blocks ++
  [ContextBlock (lit "<" ++ issueUrl ++ lit "|" ++ issueTitle ++ lit "> " ++ bullet
                 ++ lit " <" ++ commentUrl ++ lit "|View comment> " ++ bullet
                 ++ lit " " ++ commentAuthor)].

(** [buildReviewRequestBlocks]. *)
Definition buildReviewRequestBlocks (reviewerTag prUrl prTitle prBody prNumber
    requestSender requestedReviewer : str) : list SlackBlock :=
  let r := extractAndConvertImages (trim prBody) in
  let descriptionText :=
    if nonEmpty (textWithoutImages r) then 10%N :: textWithoutImages r else [] in
  let blocks :=
    [SectionBlock (lit "New PR review requested to " ++ reviewerTag ++ [10%N]
                   ++ lit "*<" ++ prUrl ++ lit "|" ++ prTitle ++ lit ">*"
                   ++ descriptionText)] in
  let blocks := blocks ++ imageBlocks r in
  blocks ++
  [ContextBlock (lit "<" ++ prUrl ++ lit "|#" ++ prNumber ++ lit "> " ++ bullet
                 ++ lit " " ++ requestSender ++ lit " requested review from "
                 ++ requestedReviewer)].

(** [buildReviewBlocks]. *)
Definition buildReviewBlocks (reviewEmoji reviewAction reviewBody prUrl prTitle
    reviewUrl reviewer : str) : list SlackBlock :=
  let r := extractAndConvertImages reviewBody in
  let mainText :=
    if nonEmpty (textWithoutImages r)
    then reviewEmoji ++ lit " *" ++ reviewAction ++ lit "*" ++ [10%N]
         ++ textWithoutImages r
    else reviewEmoji ++ lit " *" ++ reviewAction ++ lit "*" in
  let blocks := [SectionBlock mainText] in
  let blocks := blocks ++ imageBlocks r in
  blocks ++
  [ContextBlock (lit "<" ++ prUrl ++ lit "|" ++ prTitle ++ lit "> " ++ bullet
                 ++ lit " <" ++ reviewUrl ++ lit "|View review> " ++ bullet
                 ++ lit " " ++ reviewer)].

(* ------------------------------------------------------------------------- *)
(** ** The runs of [findSlackUser], path by path

    [Resolves E p h r evs] lists every way a call can go from the events [h]:
    which oracle answers lead there, what is returned and which events are
    added.  [findSlackUser_resolves] below shows that every call follows one
    of these paths. *)

Section Paths.

Variable E : Env.
Variable p : FindParams.

(** The user that [data.ok && data.user] lets through. *)
Definition resolved (d : UserResp) : option SlackUser :=
  if ur_ok d then ur_user d else None.

(** [githubUser.name || githubUser.login]. *)
Definition githubName (gu : GitHubUser) : str :=
  match gh_name gu with
  | Some (c :: n) => c :: n
  | _ => login gu
  end.

(** The id found for the user name in the supplied mapping: [None] when no
    lookup is attempted (no mapping, no entry, a falsy entry), [Some (Fail _)]
    when reading the mapping throws. *)
Definition mappedId : option (api json) :=
  match userMapping p with
  | Some (c :: s) =>
      match JSON_parse E (c :: s) with
      | Fail msg => Some (Fail msg)
      | Resp mapping =>
          match getProperty E mapping (githubUsername p) with
          | Fail msg => Some (Fail msg)
          | Resp (Some sid) => if truthy sid then Some (Resp sid) else None
          | Resp None => None
          end
      end
  | _ => None
  end.

Definition warnMapping (msg : str) : event :=
  EvWarning (lit "Failed to parse user mapping: " ++ msg).
Definition warnEmail (msg : str) : event :=
  EvWarning (lit "Email lookup failed: " ++ msg).
Definition warnLookup (msg : str) : event :=
  EvWarning (lit "Failed to lookup " ++ githubUsername p ++ lit ": " ++ msg).
Definition warnNotFound : event :=
  EvWarning (lit "Could not find Slack user for " ++ githubUsername p).

Inductive MappingTier (h : list event) : option SlackUser -> list event -> Prop :=
| MT_skipped :
    mappedId = None ->
    MappingTier h None []
| MT_malformed msg :
    mappedId = Some (Fail msg) ->
    MappingTier h None [warnMapping msg]
| MT_call_failed sid msg :
    mappedId = Some (Resp sid) ->
    slack_users_info E h (slackToken p) sid = Fail msg ->
    MappingTier h None [EvUsersInfo sid (Fail msg); warnMapping msg]
| MT_unresolved sid d :
    mappedId = Some (Resp sid) ->
    slack_users_info E h (slackToken p) sid = Resp d ->
    resolved d = None ->
    MappingTier h None [EvUsersInfo sid (Resp d)]
| MT_matched sid d user :
    mappedId = Some (Resp sid) ->
    slack_users_info E h (slackToken p) sid = Resp d ->
    resolved d = Some user ->
    MappingTier h (Some user)
      [EvUsersInfo sid (Resp d); EvInfo (msgManual (githubUsername p))].

Inductive EmailTier (gu : GitHubUser) (h : list event)
    : option SlackUser -> list event -> Prop :=
| ET_no_email :
    truthyS (email gu) = false ->
    EmailTier gu h None []
| ET_call_failed mail msg :
    email gu = Some mail -> nonEmpty mail = true ->
    slack_lookupByEmail E h (slackToken p) mail = Fail msg ->
    EmailTier gu h None [EvLookupByEmail mail (Fail msg); warnEmail msg]
| ET_unresolved mail d :
    email gu = Some mail -> nonEmpty mail = true ->
    slack_lookupByEmail E h (slackToken p) mail = Resp d ->
    resolved d = None ->
    EmailTier gu h None [EvLookupByEmail mail (Resp d)]
| ET_matched mail d user :
    email gu = Some mail -> nonEmpty mail = true ->
    slack_lookupByEmail E h (slackToken p) mail = Resp d ->
    resolved d = Some user ->
    EmailTier gu h (Some user)
      [EvLookupByEmail mail (Resp d); EvInfo (msgByEmail (githubUsername p))].

(** The member that the name search picks from a [users.list] body. *)
Definition nameSearch (gu : GitHubUser) (d : ListResp) : option SlackUser :=
  match lr_ok d, lr_members d with
  | true, Some members =>
      find (nameMatches E (githubName gu) (githubUsername p)) members
  | _, _ => None
  end.

Inductive Resolves (h : list event) : option SlackUser -> list event -> Prop :=
| R_mapping user e1 :
    MappingTier h (Some user) e1 ->
    Resolves h (Some user) e1
| R_github_failed e1 msg :
    MappingTier h None e1 ->
    github_getByUsername E (h ++ e1) (githubUsername p) = Fail msg ->
    Resolves h None
      (e1 ++ [EvGetByUsername (githubUsername p) (Fail msg); warnLookup msg])
| R_email e1 gu e2 user :
    MappingTier h None e1 ->
    github_getByUsername E (h ++ e1) (githubUsername p) = Resp gu ->
    EmailTier gu (h ++ e1 ++ [EvGetByUsername (githubUsername p) (Resp gu)])
      (Some user) e2 ->
    Resolves h (Some user)
      (e1 ++ [EvGetByUsername (githubUsername p) (Resp gu)] ++ e2)
| R_list_failed e1 gu e2 msg :
    MappingTier h None e1 ->
    github_getByUsername E (h ++ e1) (githubUsername p) = Resp gu ->
    EmailTier gu (h ++ e1 ++ [EvGetByUsername (githubUsername p) (Resp gu)])
      None e2 ->
    slack_users_list E
      (h ++ e1 ++ [EvGetByUsername (githubUsername p) (Resp gu)] ++ e2)
      (slackToken p) = Fail msg ->
    Resolves h None
      (e1 ++ [EvGetByUsername (githubUsername p) (Resp gu)] ++ e2
          ++ [EvUsersList (Fail msg); warnLookup msg])
| R_name e1 gu e2 d member :
    MappingTier h None e1 ->
    github_getByUsername E (h ++ e1) (githubUsername p) = Resp gu ->
    EmailTier gu (h ++ e1 ++ [EvGetByUsername (githubUsername p) (Resp gu)])
      None e2 ->
    slack_users_list E
      (h ++ e1 ++ [EvGetByUsername (githubUsername p) (Resp gu)] ++ e2)
      (slackToken p) = Resp d ->
    nameSearch gu d = Some member ->
    Resolves h (Some member)
      (e1 ++ [EvGetByUsername (githubUsername p) (Resp gu)] ++ e2
          ++ [EvUsersList (Resp d); EvInfo (msgByName (githubUsername p))])
| R_not_found e1 gu e2 d :
    MappingTier h None e1 ->
    github_getByUsername E (h ++ e1) (githubUsername p) = Resp gu ->
    EmailTier gu (h ++ e1 ++ [EvGetByUsername (githubUsername p) (Resp gu)])
      None e2 ->
    slack_users_list E
      (h ++ e1 ++ [EvGetByUsername (githubUsername p) (Resp gu)] ++ e2)
      (slackToken p) = Resp d ->
    nameSearch gu d = None ->
    Resolves h None
      (e1 ++ [EvGetByUsername (githubUsername p) (Resp gu)] ++ e2
          ++ [EvUsersList (Resp d); warnNotFound]).

End Paths.

(** The two guarded blocks of [findSlackUser], named so that their runs can
    be described one at a time. *)
Section Tiers.

Variable E : Env.
Variable p : FindParams.

Definition mappingTier : M (option SlackUser) :=
  if truthyS (userMapping p) then
    try
      (mapping <- lift (JSON_parse E (match userMapping p with
                                     | Some s => s
                                     | None => []
                                     end)) ;;
       slackUserId <- lift (getProperty E mapping (githubUsername p)) ;;
       match slackUserId with
       | Some sid =>
           if truthy sid then
             userData <- call (fun h => slack_users_info E h (slackToken p) sid)
                              (EvUsersInfo sid) ;;
             match ur_ok userData, ur_user userData with
             | true, Some user =>
                 info (msgManual (githubUsername p)) ;; ret (Some user)
             | _, _ => ret None
             end
           else ret None
       | None => ret None
       end)
    catch (fun msg =>
       warning (lit "Failed to parse user mapping: " ++ msg) ;; ret None)
  else ret None.

Definition emailTier (githubUser : GitHubUser) : M (option SlackUser) :=
  if truthyS (email githubUser) then
    try
      (emailData <- call (fun h => slack_lookupByEmail E h (slackToken p)
                                     (match email githubUser with
                                      | Some m => m
                                      | None => []
                                      end))
                         (EvLookupByEmail (match email githubUser with
                                           | Some m => m
                                           | None => []
                                           end)) ;;
       match ur_ok emailData, ur_user emailData with
       | true, Some user => info (msgByEmail (githubUsername p)) ;; ret (Some user)
       | _, _ => ret None
       end)
    catch (fun msg =>
       warning (lit "Email lookup failed: " ++ msg) ;; ret None)
  else ret None.

End Tiers.

(** Events that belong to the email tier and to the name-search tier. *)
Definition laterTierCall (ev : event) : bool :=
  match ev with
  | EvGetByUsername _ _ | EvLookupByEmail _ _ | EvUsersList _ => true
  | _ => false
  end.

(** The call events of a run that came back with an answer. *)
Definition answered (ev : event) : bool :=
  match ev with
  | EvUsersInfo _ (Resp _) | EvGetByUsername _ (Resp _)
  | EvLookupByEmail _ (Resp _) | EvUsersList (Resp _) => true
  | _ => false
  end.

(** A tier produced [user]: the run holds an id lookup or an email lookup
    answered with [user], or a member list in which the name search finds
    [user]. *)
Definition matchedIn (E : Env) (p : FindParams) (user : SlackUser)
    (evs : list event) : Prop :=
  (exists sid d, In (EvUsersInfo sid (Resp d)) evs /\ resolved d = Some user)
  \/ (exists mail d, In (EvLookupByEmail mail (Resp d)) evs /\ resolved d = Some user)
  \/ (exists gu d,
        In (EvGetByUsername (githubUsername p) (Resp gu)) evs
        /\ In (EvUsersList (Resp d)) evs
        /\ nameSearch E p gu d = Some user).

(** Case-insensitive containment and equality as the name search tests them. *)
Definition containsCI (E : Env) (field : option str) (x : str) : Prop :=
  exists s pre post,
    field = Some s /\ toLowerCase E s = pre ++ toLowerCase E x ++ post.

Definition equalsCI (E : Env) (field : option str) (x : str) : Prop :=
  exists s, field = Some s /\ toLowerCase E s = toLowerCase E x.

(** The first truthy value of a priority list, or the last resort. *)
Fixpoint firstTruthy (l : list (option str)) (last : option str) : option str :=
  match l with
  | [] => last
  | x :: l' => if truthyS x then x else firstTruthy l' last
  end.

(** A directory record that holds a non-empty profile display name, real
    name or handle. *)
Definition carriesName (u : SlackUser) : Prop :=
  exists s, s <> []
    /\ ((exists pr, profile u = Some pr /\ display_name pr = Some s)
        \/ real_name u = Some s
        \/ name u = Some s).

(* ------------------------------------------------------------------------- *)
(** ** A small concrete world, used to run the script on examples *)

Module Demo.

Definition dq : str := [34%N].

Definition asciiLower (s : str) : str :=
  map (fun c => if ((65 <=? c) && (c <=? 90))%N then (c + 32)%N else c) s.

Definition noProfile : SlackProfile :=
  {| display_name := None; image_original := None; image_512 := None;
     image_192 := None; image_72 := None |}.

Definition ann : SlackUser :=
  {| id := lit "U1"; name := Some (lit "ann"); real_name := Some (lit "Ann Lee");
     profile := Some {| display_name := Some (lit "annie");
                        image_original := None; image_512 := None;
                        image_192 := Some (lit "https://a/192.png");
                        image_72 := Some (lit "https://a/72.png") |};
     deleted := false; is_bot := false |}.

Definition domainUser : SlackUser :=
  {| id := lit "U2"; name := Some (lit "dom"); real_name := None;
     profile := Some noProfile; deleted := false; is_bot := false |}.

Definition nameless : SlackUser :=
  {| id := lit "U3"; name := Some []; real_name := None;
     profile := None; deleted := false; is_bot := false |}.

Definition carol : SlackUser :=
  {| id := lit "U4"; name := Some (lit "carol"); real_name := Some (lit "Carol Danvers");
     profile := Some noProfile; deleted := false; is_bot := false |}.

Definition members : list SlackUser :=
  [ {| id := lit "U9"; name := Some (lit "carolbot"); real_name := Some (lit "Carol Danvers");
       profile := None; deleted := false; is_bot := true |};
    carol; ann ].

(** The mapping text: a JSON object that maps ann to U1, domain to U2 and
    nameless to U3. *)
Definition mappingText : str :=
  lit "{" ++ dq ++ lit "ann" ++ dq ++ lit ":" ++ dq ++ lit "U1" ++ dq ++ lit ","
  ++ dq ++ lit "domain" ++ dq ++ lit ":" ++ dq ++ lit "U2" ++ dq ++ lit ","
  ++ dq ++ lit "nameless" ++ dq ++ lit ":" ++ dq ++ lit "U3" ++ dq ++ lit "}".

(** The members every object inherits from [Object.prototype]: eleven
    functions and the [__proto__] accessor, which reads the prototype. *)
Definition objectPrototype (key : str) : option json :=
  if existsb (str_eqb key)
       [lit "constructor"; lit "hasOwnProperty"; lit "isPrototypeOf";
        lit "propertyIsEnumerable"; lit "toLocaleString"; lit "toString";
        lit "valueOf"; lit "__defineGetter__"; lit "__defineSetter__";
        lit "__lookupGetter__"; lit "__lookupSetter__"]
  then Some (JNative (lit "function " ++
                      (if str_eqb key (lit "constructor") then lit "Object" else key)
                      ++ lit "() { [native code] }"))
  else if str_eqb key (lit "__proto__") then Some (JNative (lit "[object Object]"))
  else None.

(** Property reads that the demo worlds answer: the only value their
    [JSON_parse] yields is an object. *)
Definition objectMember (v : json) (key : str) : option json :=
  match v with
  | JObj _ => objectPrototype key
  | _ => None
  end.

Definition directory (sid : json) : UserResp :=
  match sid with
  | JStr s =>
      if str_eqb s (lit "U1") then {| ur_ok := true; ur_user := Some ann |}
      else if str_eqb s (lit "U2") then {| ur_ok := true; ur_user := Some domainUser |}
      else if str_eqb s (lit "U3") then {| ur_ok := true; ur_user := Some nameless |}
      else {| ur_ok := false; ur_user := None |}
  | _ => {| ur_ok := false; ur_user := None |}
  end.

(** A world where the mapping text parses, GitHub knows [carol] only, no email
    is registered with Slack and the member list is [members]. *)
Definition world : Env :=
  {| JSON_parse := fun s =>
       if str_eqb s mappingText
       then Resp (JObj [(lit "ann", JStr (lit "U1")); (lit "domain", JStr (lit "U2"));
                        (lit "nameless", JStr (lit "U3"))])
       else Fail (lit "Unexpected token");
     inherited := objectMember;
     toLowerCase := asciiLower;
     slack_users_info := fun _ _ sid => Resp (directory sid);
     github_getByUsername := fun _ u =>
       if str_eqb u (lit "carol")
       then Resp {| login := lit "carol"; gh_name := Some (lit "Carol");
                    email := Some (lit "carol@example.com") |}
       else Fail (lit "Not Found");
     slack_lookupByEmail := fun _ _ _ => Resp {| ur_ok := false; ur_user := None |};
     slack_users_list := fun _ _ => Resp {| lr_ok := true; lr_members := Some members |} |}.

(** A world where every call fails. *)
Definition offline : Env :=
  {| JSON_parse := fun _ => Fail (lit "Unexpected token");
     inherited := objectMember;
     toLowerCase := asciiLower;
     slack_users_info := fun _ _ _ => Fail (lit "fetch failed");
     github_getByUsername := fun _ _ => Fail (lit "fetch failed");
     slack_lookupByEmail := fun _ _ _ => Fail (lit "fetch failed");
     slack_users_list := fun _ _ => Fail (lit "fetch failed") |}.

Definition token : str := lit "xoxb-1".

Definition lookup (u : str) : FindParams :=
  {| githubUsername := u; slackToken := token; userMapping := Some mappingText |}.

Definition mentionsIn (text : str) : MentionParams :=
  {| mp_text := text; mp_slackToken := token; mp_userMapping := Some mappingText |}.

End Demo.

(* ------------------------------------------------------------------------- *)
(** ** What a pattern matches, and what the text functions are meant to do *)

(** [Steps r st st']: the matcher can pass over [r] from [st] to [st']. *)
Fixpoint Steps (r : regex) (st st' : mstate) : Prop :=
  match r with
  | Eps => st' = st
  | Chr p =>
      exists c, rest st = c :: rest st' /\ p c = true
                /\ seen st' = c :: seen st /\ caps st' = caps st
  | Cat a b => exists mid, Steps a st mid /\ Steps b mid st'
  | Rep p lo hi =>
      exists w, rest st = w ++ rest st' /\ seen st' = rev w ++ seen st
                /\ caps st' = caps st
                /\ Forall (fun c => p c = true) w
                /\ lo <= length w
                /\ match hi with Some h => length w <= h | None => True end
  | WordB => st' = st /\ xorb (wordAt (seen st)) (wordAt (rest st)) = true
  | Cap a =>
      exists mid, Steps a st mid
        /\ st' = MState (seen mid) (rest mid)
                   (caps mid ++ [rev (firstn (length (seen mid) - length (seen st))
                                        (seen mid))])
  end.

(** The text a piece of a global scan stands for, and the text that is kept
    when every match is replaced by the empty string. *)
Definition pieceText (x : piece) : str :=
  match x with
  | Lit c => [c]
  | Hit m => m_text m
  end.

Definition keptText (x : piece) : str :=
  match x with
  | Lit c => [c]
  | Hit _ => []
  end.

(** The image tags recognised in a text, in order of appearance. *)
Definition imgTags (text : str) : list str :=
  map m_text (matchAll imgTagPattern text).

(** [imgTag.match(pattern)?.[1]] for the two attribute patterns. *)
Definition attrValue (attr : str) (tag : str) : option str :=
  match matchFirst (attrPattern attr) tag with
  | Some m => Some (group1 m)
  | None => None
  end.

(** The block pushed for one tag. *)
Definition tagBlock (tag : str) : list SlackBlock :=
  match attrValue (lit "src") tag with
  | Some url =>
      [ImageBlock url (match attrValue (lit "alt") tag with
                       | Some a => a
                       | None => lit "Image"
                       end)]
  | None => []
  end.

(** Two strings equal up to ASCII letter case. *)
Definition sameCI (pat s : str) : Prop :=
  Forall2 (fun a c => isCI a c = true) pat s.

(** [tag] holds, after [pre], the attribute name, [=], a quote character, the
    non-empty run [v] free of quote characters, and a quote character. *)
Definition AttrAt (attr tag pre v post : str) : Prop :=
  exists nm q1 q2,
    tag = pre ++ nm ++ 61%N :: q1 :: v ++ q2 :: post
    /\ sameCI attr nm /\ isQuote q1 = true /\ isQuote q2 = true
    /\ v <> [] /\ Forall (fun c => notQuote c = true) v.

(** The shape of a recognised image tag. *)
Definition ImgTagShape (tag : str) : Prop :=
  exists nm w body,
    tag = 60%N :: nm ++ w ++ body ++ [62%N]
    /\ sameCI (lit "img") nm
    /\ w <> [] /\ Forall (fun c => isSpace c = true) w
    /\ Forall (fun c => notGt c = true) body.

(** An attribute as HTML writes it: a space, the name, [=], and the value
    between two occurrences of one quote character that the value does not
    contain. *)
Definition HtmlAttr (attr v tag : str) : Prop :=
  exists pre q post,
    tag = pre ++ 32%N :: attr ++ 61%N :: q :: v ++ q :: post
    /\ isQuote q = true /\ ~ In q v.

(** Runs of newlines, collapsed as the specification words it: a run of three
    or more becomes exactly two, shorter runs stay.  [n] counts the newlines
    of the run being read. *)
Definition emitRun (n : nat) : str :=
  if 3 <=? n then [10; 10]%N else repeat 10%N n.

Fixpoint collapseRuns (n : nat) (s : str) : str :=
  match s with
  | [] => emitRun n
  | c :: s' =>
      if N.eqb c 10 then collapseRuns (S n) s'
      else emitRun n ++ c :: collapseRuns 0 s'
  end.

(** The next code unit is not a newline, and the length of a leading run of
    newlines. *)
Definition noNewlineAhead (s : str) : Prop :=
  match s with
  | c :: _ => N.eqb c 10 = false
  | [] => True
  end.

Fixpoint runLength (s : str) : nat :=
  match s with
  | c :: s' => if N.eqb c 10 then S (runLength s') else 0
  | [] => 0
  end.

(** No whitespace at either end. *)
Definition Trimmed (s : str) : Prop :=
  match s with
  | [] => True
  | c :: _ => isSpace c = false /\ isSpace (last s c) = false
  end.

(** Kinds of blocks. *)
Definition isSection (b : SlackBlock) : bool :=
  match b with SectionBlock _ => true | _ => false end.
Definition isImage (b : SlackBlock) : bool :=
  match b with ImageBlock _ _ => true | _ => false end.
Definition isContext (b : SlackBlock) : bool :=
  match b with ContextBlock _ => true | _ => false end.

(** A block sequence made of an optional text section, the image blocks
    [imgs] in order, and one closing context block. *)
Definition Shaped (blocks imgs : list SlackBlock) (withSection : bool) : Prop :=
  exists sec footer,
    blocks = sec ++ imgs ++ [ContextBlock footer]
    /\ (if withSection then exists t, sec = [SectionBlock t] else sec = [])
    /\ Forall (fun b => isImage b = true) imgs
    /\ length (filter isContext blocks) = 1
    /\ length (filter isSection blocks) <= 1
    /\ last blocks (SectionBlock []) = ContextBlock footer.

(* ------------------------------------------------------------------------- *)
(** ** Review comments *)

(** A line comment of a review, as [listCommentsForReview] lists it: only its
    [body] is read, and it may be missing or empty. *)
Record ReviewComment : Type := {
  body : option str
}.

(** The arguments of [fetchReviewComments] that are data, with the [owner]
    and [repo] of [context.repo]. *)
Record ReviewParams : Type := {
  reviewId : str;
  prNumber : str;
  owner : str;
  repo : str
}.

(** An awaited call whose answer is not kept among the events. *)
Definition request (A : Type) (ask : list event -> api A) : M A :=
  fun h =>
    match ask h with
    | Resp a => (Ret a, [])
    | Fail msg => (Throw msg, [])
    end.

(** [comments.map(c => c.body).filter(Boolean)]. *)
Fixpoint bodies (comments : list ReviewComment) : list str :=
  match comments with
  | [] => []
  | c :: l =>
      match body c with
      | Some (x :: b) => (x :: b) :: bodies l
      | _ => bodies l
      end
  end.

Section ReviewComments.

(** [github.rest.pulls.listCommentsForReview], by owner, repo, pull number
    and review id; the [data] of the answer may be missing. *)
Variable listCommentsForReview :
  list event -> str -> str -> str -> str -> api (option (list ReviewComment)).

(** [fetchReviewComments].  The block inside [try] yields [Some s] when the
    function returns [s] from it. *)
Definition fetchReviewComments (p : ReviewParams) : M str :=
  r <- (try
          (comments <- request (fun h => listCommentsForReview h (owner p) (repo p)
                                           (prNumber p) (reviewId p)) ;;
           match comments with
           | Some (c :: l) =>
               info (checkMark ++ lit " Fetched " ++ ofNat (length (c :: l))
                     ++ lit " review comment(s)") ;;
               ret (Some (join [10; 10]%N (bodies (c :: l))))
           | _ => ret None
           end)
        catch (fun msg =>
           warning (lit "Failed to fetch review comments: " ++ msg) ;; ret None)) ;;
  match r with
  | Some s => ret s
  | None => ret []
  end.

End ReviewComments.

(* ------------------------------------------------------------------------- *)
(** ** The diff check of [check-file-changed.yml]

    The script of the step [diff-result].  [filePath] is the value of the
    string literal that the workflow expression leaves in the script text. *)

Module CheckFileChanged.

(** An entry of the list that [parse-diff] returns: [to] is the new path and
    [new] is set for a file that the diff creates. *)
Record DiffFile : Type := {
  to : option str;
  new : option bool
}.

(** A value handed to [core.setOutput]. *)
Inductive outval : Type :=
| OutUndefined
| OutBool (b : bool).

Inductive step : Type :=
| SetOutput (name : str) (v : outval)
| Warning (msg : str).

(** The outcome of the script: the steps it took, and whether it ended by
    throwing. *)
Inductive outcome : Type :=
| Done (steps : list step)
| Thrown (msg : str).

Record World : Type := {
  (** [context.payload.pull_request.diff_url]; there is no [pull_request] on
      other events *)
  diff_url : option str;
  (** [github.request(diff_url)]: the [data] of the answer, or the text of
      the error *)
  github_request : str -> api (option str);
  (** [require('parse-diff')] applied to the diff text *)
  parse : str -> api (option (list DiffFile))
}.

(** [x.to === filePath]. *)
Definition isTarget (filePath : str) (x : DiffFile) : bool :=
  match to x with
  | Some t => str_eqb t filePath
  | None => false
  end.

Definition failed (err : str) : list step :=
  [Warning (lit "Could not completely get file diff. Reason: " ++ err);
   SetOutput (lit "justBeenCreated") (OutBool false);
   SetOutput (lit "hasBeenUpdated") (OutBool false)].

Definition script (w : World) (filePath : str) : outcome :=
  match diff_url w with
  | None => Thrown (lit "Cannot read properties of undefined")
  | Some url =>
      match github_request w url with
      | Fail err => Done (failed err)
      | Resp data =>
          match parse w (match data with
                         | Some (c :: d) => c :: d
                         | _ => []
                         end) with
          | Fail err => Done (failed err)
          | Resp parsed =>
              let files := match parsed with Some l => l | None => [] end in
              let fileDiff := filter (isTarget filePath) files in
              match fileDiff with
              | file :: _ =>
                  Done [SetOutput (lit "justBeenCreated")
                          (match new file with
                           | Some b => OutBool b
                           | None => OutUndefined
                           end);
                        SetOutput (lit "hasBeenUpdated") (OutBool true)]
              | [] =>
                  Done [SetOutput (lit "justBeenCreated") (OutBool false);
                        SetOutput (lit "hasBeenUpdated") (OutBool false)]
              end
          end
      end
  end.

(** The value last set for an output. *)
Fixpoint output (name : str) (steps : list step) : option outval :=
  match steps with
  | [] => None
  | SetOutput n v :: l =>
      match output name l with
      | Some v' => Some v'
      | None => if str_eqb n name then Some v else None
      end
  | Warning _ :: l => output name l
  end.

Definition timesSet (name : str) (steps : list step) : nat :=
  length (filter (fun s => match s with
                           | SetOutput n _ => str_eqb n name
                           | Warning _ => false
                           end) steps).

(** Two worlds to run the script in. *)
Definition demoWorld : World :=
  {| diff_url := Some (lit "https://example.test/pull/1.diff");
     github_request := fun _ => Resp (Some (lit "diff --git a/x b/x"));
     parse := fun _ =>
       Resp (Some [ {| to := Some (lit "README.md"); new := None |};
                    {| to := Some (lit "CHANGELOG.md"); new := Some true |};
                    {| to := Some (lit "CHANGELOG.md"); new := None |} ]) |}.

Definition brokenWorld : World :=
  {| diff_url := Some (lit "https://example.test/pull/1.diff");
     github_request := fun _ => Fail (lit "HttpError: Not Found");
     parse := fun _ => Resp None |}.

End CheckFileChanged.

(* ------------------------------------------------------------------------- *)
(** ** Further vocabulary for the properties below *)

(** The place of an endpoint in the order of the tiers; log lines have none. *)
Definition callRank (ev : event) : option nat :=
  match ev with
  | EvUsersInfo _ _ => Some 0
  | EvGetByUsername _ _ => Some 1
  | EvLookupByEmail _ _ => Some 2
  | EvUsersList _ => Some 3
  | EvInfo _ | EvWarning _ => None
  end.

Fixpoint callRanks (evs : list event) : list nat :=
  match evs with
  | [] => []
  | ev :: l =>
      match callRank ev with
      | Some n => n :: callRanks l
      | None => callRanks l
      end
  end.

(** Strictly ascending. *)
Fixpoint ascending (l : list nat) : bool :=
  match l with
  | a :: l' =>
      match l' with
      | b :: _ => (a <? b) && ascending l'
      | [] => true
      end
  | [] => true
  end.

(** No three newlines in a row; [k] counts the newlines just read. *)
Fixpoint noTripleFrom (k : nat) (s : str) : bool :=
  match s with
  | [] => true
  | c :: s' =>
      if N.eqb c 10 then (S k <? 3) && noTripleFrom (S k) s'
      else noTripleFrom 0 s'
  end.

(** A block whose texts are all non-empty. *)
Definition filled (b : SlackBlock) : Prop :=
  match b with
  | SectionBlock t => t <> []
  | ImageBlock url alt => url <> [] /\ alt <> []
  | ContextBlock t => t <> []
  end.

(** What a match is replaced by when the replacement text is taken as it is. *)
Definition pasted (t : str) (x : piece) : str :=
  match x with
  | Lit c => [c]
  | Hit _ => t
  end.

(** A world in which Slack knows the email of the GitHub user [dave]. *)
Module Demo2.

Definition dave : SlackUser :=
  {| id := lit "U7"; name := Some (lit "dave"); real_name := Some (lit "Dave Ray");
     profile := None; deleted := false; is_bot := false |}.

Definition world : Env :=
  {| JSON_parse := fun _ => Fail (lit "Unexpected token");
     inherited := Demo.objectMember;
     toLowerCase := Demo.asciiLower;
     slack_users_info := fun _ _ _ => Fail (lit "fetch failed");
     github_getByUsername := fun _ u =>
       Resp {| login := u; gh_name := None; email := Some (lit "dave@example.com") |};
     slack_lookupByEmail := fun _ _ mail =>
       if str_eqb mail (lit "dave@example.com")
       then Resp {| ur_ok := true; ur_user := Some dave |}
       else Resp {| ur_ok := false; ur_user := None |};
     slack_users_list := fun _ _ => Fail (lit "fetch failed") |}.

Definition lookup (u : str) : FindParams :=
  {| githubUsername := u; slackToken := Demo.token; userMapping := None |}.

End Demo2.

(* ------------------------------------------------------------------------- *)
(** ** Strings: what the boolean tests decide *)

Lemma str_eqb_eq (a b : str) : str_eqb a b = true <-> a = b.
Proof.
  revert b. induction a as [|x a IH]; intros [|y b]; cbn [str_eqb]; split; try easy.
  - intros [Hx Hab]%andb_true_iff. apply N.eqb_eq in Hx. apply IH in Hab.
    now subst.
  - intros [= -> ->]. rewrite N.eqb_refl. now apply IH.
Qed.

Lemma startsWith_spec (s p : str) :
  startsWith s p = true <-> exists post, s = p ++ post.
Proof.
  revert s. induction p as [|x p IH]; intros s; cbn [startsWith].
  - split; [now exists s | now destruct s].
  - destruct s as [|y s]; cbn [startsWith]; split; try easy.
    + now intros [post [=]].
    + intros [Hx [post ->]%IH]%andb_true_iff. apply N.eqb_eq in Hx. subst.
      now exists post.
    + intros [post [= -> ->]]. rewrite N.eqb_refl. apply IH. now exists post.
Qed.

Lemma includes_spec (s p : str) :
  includes s p = true <-> exists pre post, s = pre ++ p ++ post.
Proof.
  induction s as [|c s IH].
  - cbn [includes]. rewrite orb_false_r, startsWith_spec. split.
    + intros [post ->]. now exists [], post.
    + intros (pre & post & H). destruct pre; [now exists post|discriminate].
  - cbn [includes]. rewrite orb_true_iff, startsWith_spec, IH. split.
    + intros [[post ->] | (pre & post & ->)].
      * now exists [], post.
      * now exists (c :: pre), post.
    + intros ([|c' pre] & post & H).
      * left. now exists post.
      * right. injection H as -> ->. now exists pre, post.
Qed.

(* ------------------------------------------------------------------------- *)
(** ** Every call of [findSlackUser] follows one of the listed paths *)

Ltac case_scrutinee :=
  match goal with
  | |- context [match ?x with _ => _ end] =>
      lazymatch x with
      | context [match _ with _ => _ end] => fail
      | _ => destruct x eqn:?
      end
  end.

Ltac run_cases :=
  unfold tryCatch, bind, call, lift, info, warning, ret;
  repeat (cbn [fst snd app]; rewrite ?app_nil_r; case_scrutinee).

Ltac close_path :=
  eexists _, _; split;
  [reflexivity
  | match goal with
    | H : _ |- _ =>
        solve [eapply H;
               first [reflexivity | eassumption
                     | repeat match goal with Hx : _ = _ |- _ => rewrite Hx end;
                       reflexivity]]
    end].

Ltac path c :=
  eexists _, _; split;
  [reflexivity
  | repeat progress (cbn [fst snd app]; rewrite <- ?(@app_assoc event), ?app_nil_r);
    eapply c; eauto].

Section Runs.

Variable E : Env.
Variable p : FindParams.

Lemma mappingTier_run h :
  exists r e, mappingTier E p h = (Ret r, e) /\ MappingTier E p h r e.
Proof.
  pose proof (@MT_skipped E p h) as Hs. pose proof (@MT_malformed E p h) as Hm.
  pose proof (@MT_call_failed E p h) as Hf. pose proof (@MT_unresolved E p h) as Hu.
  pose proof (@MT_matched E p h) as Hok. unfold mappedId, resolved in *.
  unfold mappingTier.
  destruct (userMapping p) as [[|c s]|]; cbn [truthyS nonEmpty]; run_cases.
  all: repeat match goal with H : _ = _ |- _ => rewrite H in * end.
  all: close_path.
Qed.

Lemma emailTier_run gu h :
  exists r e, emailTier E p gu h = (Ret r, e) /\ EmailTier E p gu h r e.
Proof.
  pose proof (@ET_no_email E p gu h) as Hs.
  pose proof (@ET_call_failed E p gu h) as Hf.
  pose proof (@ET_unresolved E p gu h) as Hu.
  pose proof (@ET_matched E p gu h) as Hok. unfold resolved in *.
  unfold emailTier.
  destruct (email gu) as [[|c s]|]; cbn [truthyS nonEmpty]; run_cases.
  all: close_path.
Qed.

Lemma githubName_eq gu :
  (if truthyS (gh_name gu)
   then match gh_name gu with Some n => n | None => [] end
   else login gu) = githubName gu.
Proof. unfold githubName. now destruct (gh_name gu) as [[|c n]|]. Qed.

Lemma findSlackUser_resolves h :
  exists r evs, findSlackUser E p h = (Ret r, evs) /\ Resolves E p h r evs.
Proof.
  destruct (mappingTier_run h) as (r1 & e1 & H1 & P1).
  unfold findSlackUser. cbv zeta. fold (mappingTier E p).
  unfold tryCatch at 1. unfold bind at 1. rewrite H1.
  destruct r1 as [user|].
  { path R_mapping. }
  unfold bind at 1, call at 1.
  destruct (github_getByUsername E (h ++ e1) (githubUsername p)) as [msg|gu] eqn:Hg.
  { path R_github_failed. }
  fold (emailTier E p gu).
  destruct (emailTier_run gu (h ++ e1 ++ [EvGetByUsername (githubUsername p) (Resp gu)]))
    as (r2 & e2 & H2 & P2).
  unfold bind at 1. rewrite <- app_assoc, H2.
  destruct r2 as [user|].
  { path R_email. }
  unfold bind at 1, call at 1. rewrite <- !app_assoc.
  destruct (slack_users_list E _ (slackToken p)) as [msg|d] eqn:Hl.
  { path R_list_failed. }
  rewrite githubName_eq.
  destruct (nameSearch E p gu d) as [member|] eqn:Hs.
  - unfold nameSearch in Hs.
    destruct (lr_ok d) eqn:Hok, (lr_members d) eqn:Hms; try discriminate.
    rewrite Hs. path R_name. unfold nameSearch. now rewrite Hok, Hms.
  - assert (Hr : forall h',
      (if lr_ok d
       then match lr_members d with
            | Some members =>
                match find (nameMatches E (githubName gu) (githubUsername p)) members with
                | Some su => info (msgByName (githubUsername p)) ;; ret (Some su)
                | None => ret None
                end
            | None => ret None
            end
       else ret None) h' = (Ret None, [])).
    { intros. unfold nameSearch in Hs.
      destruct (lr_ok d), (lr_members d); try reflexivity. now rewrite Hs. }
    unfold bind at 1. rewrite Hr. path R_not_found.
Qed.

(** The same fact, read from a given run. *)
Lemma run_resolves h r evs :
  findSlackUser E p h = (r, evs) ->
  exists v, r = Ret v /\ Resolves E p h v evs.
Proof.
  destruct (findSlackUser_resolves h) as (v & evs' & H & HR).
  rewrite H. intros [= <- <-]. eauto.
Qed.

End Runs.

Ltac invert_tiers :=
  repeat match goal with
         | H : MappingTier _ _ _ _ _ |- _ => inversion H; subst; clear H
         | H : EmailTier _ _ _ _ _ _ |- _ => inversion H; subst; clear H
         end.

Ltac invert_run H :=
  inversion H; subst; clear H; invert_tiers.

Ltac in_events :=
  cbn [In app] in *; unfold warnMapping, warnEmail, warnLookup, warnNotFound in *;
  intuition (try discriminate; try congruence).

(* ------------------------------------------------------------------------- *)
(** ** The resolver: priority, fall-through and absence of faults *)

(** C1.  When the user name is a key of the supplied mapping and the directory
    resolves the mapped Slack id to a user, [findSlackUser] returns that user;
    the run consists of the id lookup and the success message, so neither the
    email tier nor the name-search tier is attempted.  A supplied mapping is a
    non-empty text that parses to an object, and a Slack id is a non-empty
    string: both are tested for truthiness before the lookup. *)
Theorem mapping_takes_priority (E : Env) (p : FindParams) (h : list event)
    (s : str) (mapping : list (str * json)) (sid : str) (d : UserResp)
    (user : SlackUser) :
  userMapping p = Some s ->
  s <> [] ->
  JSON_parse E s = Resp (JObj mapping) ->
  assoc (githubUsername p) mapping = Some (JStr sid) ->
  sid <> [] ->
  slack_users_info E h (slackToken p) (JStr sid) = Resp d ->
  ur_ok d = true ->
  ur_user d = Some user ->
  exists evs,
    findSlackUser E p h = (Ret (Some user), evs)
    /\ evs = [EvUsersInfo (JStr sid) (Resp d); EvInfo (msgManual (githubUsername p))]
    /\ existsb laterTierCall evs = false
    /\ Forall (fun ev => laterTierCall ev = false) evs.
Proof.
  intros Hm Hs Hp Ha Hsid Hc Hok Hu.
  assert (Hid : mappedId E p = Some (Resp (JStr sid))).
  { unfold mappedId. rewrite Hm. destruct s as [|c s]; [easy|]. rewrite Hp.
    cbn [getProperty]. rewrite Ha. cbn [truthy]. now destruct sid. }
  assert (Hr : resolved d = Some user) by (unfold resolved; now rewrite Hok).
  destruct (findSlackUser_resolves E p h) as (r & evs & Hrun & HR).
  exists evs. rewrite Hrun.
  assert (r = Some user /\
          evs = [EvUsersInfo (JStr sid) (Resp d); EvInfo (msgManual (githubUsername p))])
    as [-> ->].
  { invert_run HR; try congruence.
    assert (sid0 = JStr sid) as -> by congruence.
    assert (d0 = d) as -> by congruence.
    split; congruence. }
  repeat split. repeat constructor.
Qed.

Lemma mapping_takes_priority_witness :
  exists evs,
    findSlackUser Demo.world (Demo.lookup (lit "ann")) [] = (Ret (Some Demo.ann), evs)
    /\ evs = [EvUsersInfo (JStr (lit "U1")) (Resp (Demo.directory (JStr (lit "U1"))));
              EvInfo (msgManual (lit "ann"))]
    /\ existsb laterTierCall evs = false
    /\ Forall (fun ev => laterTierCall ev = false) evs.
Proof.
  apply (@mapping_takes_priority Demo.world (Demo.lookup (lit "ann")) []
           Demo.mappingText
           [(lit "ann", JStr (lit "U1")); (lit "domain", JStr (lit "U2"));
            (lit "nameless", JStr (lit "U3"))]
           (lit "U1") (Demo.directory (JStr (lit "U1"))) Demo.ann);
    solve [reflexivity | discriminate].
Defined.

(** C3.  [findSlackUser] never throws: every call returns a user or [null].
    A returned user was produced by one of the three tiers, so the result is
    [null] when no tier matches, in particular when no call is answered. *)
Theorem findSlackUser_never_throws (E : Env) (p : FindParams) (h : list event) :
  exists r evs,
    findSlackUser E p h = (Ret r, evs)
    /\ (forall user, r = Some user -> matchedIn E p user evs)
    /\ ((forall user, ~ matchedIn E p user evs) -> r = None)
    /\ (existsb answered evs = false -> r = None).
Proof.
  destruct (findSlackUser_resolves E p h) as (r & evs & Hrun & HR).
  exists r, evs. split; [exact Hrun|].
  assert (Hm : forall user, r = Some user -> matchedIn E p user evs).
  { intros user ->. unfold matchedIn. invert_run HR.
    all: first
      [ solve [left; eexists _, _; split; [left; reflexivity | assumption]]
      | solve [right; left; eexists _, _; split; [|eassumption]; in_events]
      | solve [right; right; eexists _, _; repeat split; [| |eassumption];
               in_events] ]. }
  split; [exact Hm|]. split.
  - intros Hno. destruct r as [user|]; [|reflexivity].
    now destruct (Hno user (Hm user eq_refl)).
  - intros Hall. destruct r as [user|]; [exfalso|reflexivity].
    assert (Hn : forall ev, In ev evs -> answered ev = false).
    { intros ev Hin. destruct (answered ev) eqn:Ha; [|reflexivity].
      assert (existsb answered evs = true) by (apply existsb_exists; eauto).
      congruence. }
    destruct (Hm user eq_refl) as [(sid & d & Hin & _)|[(m & d & Hin & _)|(gu & d & Hin & _)]];
      apply Hn in Hin; discriminate.
Qed.

Example findSlackUser_offline :
  findSlackUser Demo.offline (Demo.lookup (lit "carol")) [] =
  (Ret None,
   [EvWarning (lit "Failed to parse user mapping: Unexpected token");
    EvGetByUsername (lit "carol") (Fail (lit "fetch failed"));
    EvWarning (lit "Failed to lookup carol: fetch failed")]).
Proof. reflexivity. Qed.




(** ** The name search *)

Lemma nameMatches_spec (E : Env) (gn u : str) (m : SlackUser) :
  nameMatches E gn u m = true <->
  deleted m = false /\ is_bot m = false /\
  (containsCI E (real_name m) gn
   \/ containsCI E (profileField display_name m) gn
   \/ equalsCI E (name m) u).
Proof.
  unfold nameMatches, containsCI, equalsCI, profileField.
  rewrite !andb_true_iff, !orb_true_iff, !negb_true_iff.
  assert (Hc : forall o : option str,
             match o with
             | Some s => includes (toLowerCase E s) (toLowerCase E gn)
             | None => false
             end = true <->
             exists s pre post,
               o = Some s /\ toLowerCase E s = pre ++ toLowerCase E gn ++ post).
  { intros [s|]; split.
    - intros (pre & post & H)%includes_spec. now exists s, pre, post.
    - intros (s' & pre & post & [= <-] & H). apply includes_spec. eauto.
    - discriminate.
    - now intros (s' & pre & post & [=] & _). }
  assert (He : match name m with
               | Some n => str_eqb (toLowerCase E n) (toLowerCase E u)
               | None => false
               end = true <->
               exists s, name m = Some s /\ toLowerCase E s = toLowerCase E u).
  { destruct (name m) as [n|]; split.
    - intros H%str_eqb_eq. eauto.
    - intros (s & [= <-] & H). now apply str_eqb_eq.
    - discriminate.
    - now intros (s & [=] & _). }
  rewrite (Hc (real_name m)), He.
  assert (Hd : match profile m with
               | Some pr =>
                   match display_name pr with
                   | Some dn => includes (toLowerCase E dn) (toLowerCase E gn)
                   | None => false
                   end
               | None => false
               end =
               match (match profile m with Some pr => display_name pr | None => None end) with
               | Some dn => includes (toLowerCase E dn) (toLowerCase E gn)
               | None => false
               end) by now destruct (profile m).
  rewrite Hd, Hc. tauto.
Qed.

(** C8.  A member returned by the name search (the run requested the member
    list) is not deleted, not a bot, and either its real name or its profile
    display name contains the GitHub display name (the login when there is
    none) case-insensitively, or its handle equals the GitHub user name
    case-insensitively. *)
Theorem name_search_selects_matching (E : Env) (p : FindParams) (h : list event)
    (member : SlackUser) (evs : list event) (l : api ListResp) :
  findSlackUser E p h = (Ret (Some member), evs) ->
  In (EvUsersList l) evs ->
  exists gu d members,
    In (EvGetByUsername (githubUsername p) (Resp gu)) evs
    /\ l = Resp d /\ lr_members d = Some members /\ In member members
    /\ deleted member = false /\ is_bot member = false
    /\ (containsCI E (real_name member) (githubName gu)
        \/ containsCI E (profileField display_name member) (githubName gu)
        \/ equalsCI E (name member) (githubUsername p)).
Proof.
  intros Hrun Hl. destruct (run_resolves _ _ _ Hrun) as (v & [= <-] & HR).
  assert (Hsel : forall gu d,
             nameSearch E p gu d = Some member ->
             exists members,
               lr_members d = Some members /\ In member members
               /\ deleted member = false /\ is_bot member = false
               /\ (containsCI E (real_name member) (githubName gu)
                   \/ containsCI E (profileField display_name member) (githubName gu)
                   \/ equalsCI E (name member) (githubUsername p))).
  { intros gu d Hs. unfold nameSearch in Hs.
    destruct (lr_ok d); [|discriminate].
    destruct (lr_members d) as [members|]; [|discriminate].
    apply find_some in Hs as [Hin Hm]. apply nameMatches_spec in Hm.
    exists members. tauto. }
  invert_run HR; try solve [exfalso; in_events].
  all: match goal with
       | Hs : nameSearch _ _ ?gu ?d = Some _ |- _ =>
           destruct (Hsel gu d Hs) as (members & Hms & Hrest);
           exists gu, d, members
       end.
  all: repeat split; try tauto; in_events.
Qed.

Lemma name_search_selects_matching_witness :
  exists gu d members,
    In (EvGetByUsername (lit "carol") (Resp gu))
       (snd (findSlackUser Demo.world (Demo.lookup (lit "carol")) []))
    /\ Resp {| lr_ok := true; lr_members := Some Demo.members |} = Resp d
    /\ lr_members d = Some members /\ In Demo.carol members
    /\ deleted Demo.carol = false /\ is_bot Demo.carol = false
    /\ (containsCI Demo.world (real_name Demo.carol) (githubName gu)
        \/ containsCI Demo.world (profileField display_name Demo.carol) (githubName gu)
        \/ equalsCI Demo.world (name Demo.carol) (lit "carol")).
Proof.
  apply (@name_search_selects_matching Demo.world (Demo.lookup (lit "carol")) []
           Demo.carol _ _ eq_refl).
  cbn. intuition.
Defined.

(** ** Profiles *)

(** C7.  [getSlackUserProfile(null)] is [{username: '', icon_url: '',
    matched: false}]; for a user the result is matched, its name is the first
    truthy of profile display name, real name and handle, and its icon the
    first truthy of the original, 512, 192 and 72 pixel images of the profile
    (the last of them when none is truthy).  A user without profile has no
    display name to offer and no icon. *)
Theorem getSlackUserProfile_spec :
  getSlackUserProfile None
  = {| username := Some []; icon_url := Some []; matched := false |}
  /\ (forall (uid : str) (handle real display original px512 px192 px72 : option str)
             (del bot : bool),
        getSlackUserProfile
          (Some {| id := uid; name := handle; real_name := real;
                   profile := Some {| display_name := display;
                                      image_original := original;
                                      image_512 := px512;
                                      image_192 := px192;
                                      image_72 := px72 |};
                   deleted := del; is_bot := bot |})
        = {| username := firstTruthy [display; real] handle;
             icon_url := firstTruthy [original; px512; px192] px72;
             matched := true |})
  /\ (forall (uid : str) (handle real : option str) (del bot : bool),
        getSlackUserProfile
          (Some {| id := uid; name := handle; real_name := real; profile := None;
                   deleted := del; is_bot := bot |})
        = {| username := firstTruthy [real] handle;
             icon_url := None;
             matched := true |}).
Proof.
  split; [reflexivity|]. split.
  - intros. unfold getSlackUserProfile, profileField. cbn [profile name real_name].
    cbn [display_name image_original image_512 image_192 image_72 firstTruthy].
    reflexivity.
  - intros. unfold getSlackUserProfile, profileField. cbn [profile name real_name].
    cbn [firstTruthy or_else truthyS]. reflexivity.
Qed.

Lemma truthyS_spec (o : option str) :
  truthyS o = true <-> exists s, o = Some s /\ s <> [].
Proof.
  destruct o as [[|c t]|]; cbn [truthyS nonEmpty]; split; try discriminate;
    try reflexivity.
  - now intros (s & [= <-] & H).
  - intros _. now exists (c :: t).
  - now intros (s & [=] & _).
Qed.

Lemma truthyS_or_else (a b : option str) :
  truthyS (or_else a b) = truthyS a || truthyS b.
Proof.
  unfold or_else. destruct (truthyS a) eqn:H; [rewrite H|]; reflexivity.
Qed.

(** The profile name is non-empty exactly for a record that carries a name. *)
Lemma profile_name_nonempty (u : SlackUser) :
  carriesName u <->
  exists s, username (getSlackUserProfile (Some u)) = Some s /\ s <> [].
Proof.
  rewrite <- truthyS_spec. cbn [getSlackUserProfile username].
  rewrite !truthyS_or_else, !orb_true_iff, !truthyS_spec.
  unfold carriesName, profileField. split.
  - intros (s & Hs & [(pr & Hp & Hd)|[H|H]]).
    + left. rewrite Hp. eauto.
    + right. left. eauto.
    + right. right. eauto.
  - intros [(s & H & Hs)|[(s & H & Hs)|(s & H & Hs)]]; exists s; split; auto.
    destruct (profile u) as [pr|]; [eauto | discriminate].
Qed.

(** A member that the name search accepts carries a name, as long as the
    names searched for are not empty. *)
Lemma nameMatches_carries (E : Env) (gn u : str) (m : SlackUser) :
  toLowerCase E [] = [] ->
  (forall s, toLowerCase E s = [] -> s = []) ->
  gn <> [] -> u <> [] ->
  nameMatches E gn u m = true ->
  carriesName m.
Proof.
  intros H0 Hinj Hgn Hu Hm. apply nameMatches_spec in Hm as (_ & _ & Hm).
  assert (Hin : forall s x pre post,
             x <> [] -> toLowerCase E s = pre ++ toLowerCase E x ++ post -> s <> []).
  { intros s x pre post Hx He ->. rewrite H0 in He. symmetry in He.
    apply app_eq_nil in He as [_ He]. apply app_eq_nil in He as [He _].
    now apply Hinj in He. }
  unfold carriesName.
  destruct Hm as [(s & pre & post & Hf & He)|[(s & pre & post & Hf & He)|(s & Hf & He)]].
  - exists s. split; [eapply (Hin s gn); eassumption|]. now right; left.
  - exists s. split; [eapply (Hin s gn); eassumption|]. left.
    unfold profileField in Hf. destruct (profile m) as [pr|]; [|discriminate]. eauto.
  - exists s. split; [|now right; right].
    intros ->. rewrite H0 in He. symmetry in He. now apply Hinj in He.
Qed.

Lemma githubName_nonempty (gu : GitHubUser) :
  login gu <> [] -> githubName gu <> [].
Proof.
  unfold githubName. now destruct (gh_name gu) as [[|c n]|].
Qed.

(** C9, as stated, fails: the directory may answer with a record whose handle,
    real name and display name are all empty or missing, and the profile name
    of that resolved identity is the empty string. *)
Lemma resolved_name_counterexample :
  fst (findSlackUser Demo.world (Demo.lookup (lit "nameless")) [])
  = Ret (Some Demo.nameless)
  /\ username (getSlackUserProfile (Some Demo.nameless)) = Some [].
Proof. split; reflexivity. Qed.

(** C9, amended.  An identity resolved by the name search has a non-empty
    profile name, for a non-empty user name and GitHub login (lower-casing
    gives the empty string for the empty string only).  An identity resolved
    by the mapping or by the email lookup is the record that the directory
    answered, taken unchecked: its profile name is non-empty exactly when that
    record carries a non-empty profile display name, real name or handle.
    The icon of a resolved identity may be missing. *)
Theorem resolved_name_nonempty :
  (forall (E : Env) (p : FindParams) (h : list event) (user : SlackUser)
          (evs : list event),
      findSlackUser E p h = (Ret (Some user), evs) ->
      (exists l, In (EvUsersList l) evs) ->
      toLowerCase E [] = [] ->
      (forall s, toLowerCase E s = [] -> s = []) ->
      githubUsername p <> [] ->
      (forall gu, In (EvGetByUsername (githubUsername p) (Resp gu)) evs ->
                  login gu <> []) ->
      exists s, username (getSlackUserProfile (Some user)) = Some s /\ s <> [])
  /\ (forall (E : Env) (p : FindParams) (h : list event) (user : SlackUser)
             (evs : list event),
        findSlackUser E p h = (Ret (Some user), evs) ->
        (forall l, ~ In (EvUsersList l) evs) ->
        (exists d,
            resolved d = Some user
            /\ ((exists sid, In (EvUsersInfo sid (Resp d)) evs)
                \/ (exists mail, In (EvLookupByEmail mail (Resp d)) evs)))
        /\ ((exists s, username (getSlackUserProfile (Some user)) = Some s /\ s <> [])
            <-> carriesName user))
  /\ (exists (E : Env) (p : FindParams) (user : SlackUser) (evs : list event) (s : str),
        findSlackUser E p [] = (Ret (Some user), evs)
        /\ username (getSlackUserProfile (Some user)) = Some s /\ s <> []
        /\ icon_url (getSlackUserProfile (Some user)) = None).
Proof.
  split; [|split].
  - intros E p h user evs Hrun [l Hl] H0 Hinj Hu Hlogin.
    apply profile_name_nonempty.
    destruct (run_resolves _ _ _ Hrun) as (v & [= <-] & HR).
    invert_run HR; try solve [exfalso; in_events].
    all: match goal with
         | Hs : nameSearch _ _ ?gu ?d = Some _ |- _ =>
             unfold nameSearch in Hs;
             destruct (lr_ok d); [|discriminate];
             destruct (lr_members d) as [members|]; [|discriminate];
             apply find_some in Hs as [_ Hs]
         end.
    all: match goal with
         | Hm : nameMatches _ _ _ _ = true |- _ =>
             apply (@nameMatches_carries E _ _ _ H0 Hinj) in Hm;
             [exact Hm | | exact Hu]
         end.
    all: apply githubName_nonempty, Hlogin; in_events.
  - intros E p h user evs Hrun Hno. split; [|symmetry; apply profile_name_nonempty].
    destruct (run_resolves _ _ _ Hrun) as (v & [= <-] & HR).
    invert_run HR.
    all: try solve [exfalso; eapply Hno; in_events].
    all: eexists; split; [eassumption|].
    all: first [ solve [left; eexists; in_events] | solve [right; eexists; in_events] ].
  - exists Demo.world, (Demo.lookup (lit "domain")), Demo.domainUser.
    eexists _, (lit "dom"). repeat split. discriminate.
Qed.

Lemma resolved_name_nonempty_witness :
  fst (findSlackUser Demo.world (Demo.lookup (lit "carol")) []) = Ret (Some Demo.carol)
  /\ exists s, username (getSlackUserProfile (Some Demo.carol)) = Some s /\ s <> [].
Proof.
  split; [reflexivity|].
  apply (proj1 resolved_name_nonempty Demo.world (Demo.lookup (lit "carol")) []
           Demo.carol _ eq_refl).
  - eexists. cbn. do 2 right. left. reflexivity.
  - reflexivity.
  - intros [|c s] H; [reflexivity | discriminate].
  - discriminate.
  - intros gu H. cbn in H.
    repeat (destruct H as [H|H]; try discriminate); [|contradiction].
    injection H as <-. discriminate.
Defined.

(* ------------------------------------------------------------------------- *)
(** ** The matcher *)

Section Matcher.

Variable A : Type.

Lemma rep_sound p lo hi (s : str) : forall n sn (k : str -> str -> option A) res,
  rep p lo hi n sn s k = Some res ->
  exists w s',
    s = w ++ s' /\ Forall (fun c => p c = true) w
    /\ lo <= n + length w
    /\ match hi with Some h => n + length w <= h \/ w = [] | None => True end
    /\ k (rev w ++ sn) s' = Some res.
Proof.
  induction s as [|c s IH]; intros n sn k res; cbn [rep].
  - destruct (lo <=? n) eqn:Hlo; [|discriminate]. intros Hk.
    apply Nat.leb_le in Hlo. exists [], []. cbn.
    repeat split; auto; [lia | destruct hi; auto].
  - assert (Hstop : (if lo <=? n then k sn (c :: s) else None) = Some res ->
                    exists w s', c :: s = w ++ s' /\ Forall (fun c => p c = true) w
                      /\ lo <= n + length w
                      /\ match hi with
                         | Some h => n + length w <= h \/ w = []
                         | None => True
                         end
                      /\ k (rev w ++ sn) s' = Some res).
    { destruct (lo <=? n) eqn:Hlo; [|discriminate]. intros Hk.
      apply Nat.leb_le in Hlo. exists [], (c :: s). cbn.
      repeat split; auto; [lia | destruct hi; auto]. }
    destruct (p c && below n hi) eqn:Hpc; [|exact Hstop].
    apply andb_true_iff in Hpc as [Hp Hb].
    destruct (rep p lo hi (S n) (c :: sn) s k) as [r|] eqn:Hrec; [|exact Hstop].
    intros [= <-]. apply IH in Hrec as (w & s' & -> & Hw & Hlen & Hhi & Hk).
    exists (c :: w), s'. cbn [app length rev]. rewrite <- app_assoc. cbn [app].
    repeat split; auto; [lia|].
    destruct hi as [h'|]; [|exact I]. left. cbn [below] in Hb.
    apply Nat.ltb_lt in Hb. destruct Hhi as [Hhi| ->]; cbn [length]; lia.
Qed.

(** The greedy choice: when the run [w] is maximal and the continuation
    accepts the position after it, that is the match. *)
Lemma rep_greedy p lo (w : str) : forall n sn s' (k : str -> str -> option A) res,
  Forall (fun c => p c = true) w ->
  match s' with c :: _ => p c = false | [] => True end ->
  lo <= n + length w ->
  k (rev w ++ sn) s' = Some res ->
  rep p lo None n sn (w ++ s') k = Some res.
Proof.
  induction w as [|c w IH]; intros n sn s' k res Hw Hs' Hlo Hk.
  - cbn [app length rev] in *.
    assert (Hn : (lo <=? n) = true) by (apply Nat.leb_le; lia).
    destruct s' as [|c s']; cbn [rep]; rewrite Hn; [exact Hk|].
    now rewrite Hs'.
  - inversion Hw as [|? ? Hc Hw']; subst. cbn [app rep below]. rewrite Hc.
    cbn [andb]. erewrite IH; eauto.
    + cbn [length] in Hlo. lia.
    + cbn [rev] in Hk. now rewrite <- app_assoc in Hk.
Qed.

Lemma run_sound (r : regex) : forall st (k : mstate -> option A) res,
  run r st k = Some res ->
  exists st', Steps r st st' /\ k st' = Some res.
Proof.
  induction r as [|p|a IHa b IHb|p lo hi| |a IHa]; intros st k res; cbn [run Steps].
  - eauto.
  - destruct st as [sn [|c s] cs]; cbn [rest seen caps]; [discriminate|].
    destruct (p c) eqn:Hp; [|discriminate]. intros Hk.
    eexists. split; [|exact Hk]. exists c. cbn. auto.
  - intros H. apply IHa in H as (mid & Ha & H). apply IHb in H as (st' & Hb & H).
    eauto.
  - intros H. apply rep_sound in H as (w & s' & Hs & Hw & Hlo & Hhi & Hk).
    eexists. split; [|exact Hk]. exists w. cbn [rest seen caps].
    repeat split; auto.
    destruct hi as [h|]; [|exact I]. destruct Hhi as [Hhi| ->]; cbn [length]; lia.
  - destruct (xorb (wordAt (seen st)) (wordAt (rest st))) eqn:Hx; [|discriminate].
    eauto.
  - intros H. apply IHa in H as (mid & Ha & H). eauto.
Qed.

End Matcher.

(** The text passed over by a match. *)
Lemma Steps_text (r : regex) : forall st st',
  Steps r st st' ->
  exists w, rest st = w ++ rest st' /\ seen st' = rev w ++ seen st.
Proof.
  induction r as [|p|a IHa b IHb|p lo hi| |a IHa]; intros st st'; cbn [Steps].
  - intros ->. now exists [].
  - intros (c & Hr & _ & Hs & _). exists [c]. now rewrite Hr, Hs.
  - intros (mid & Ha & Hb). apply IHa in Ha as (w1 & Hr1 & Hs1).
    apply IHb in Hb as (w2 & Hr2 & Hs2). exists (w1 ++ w2).
    rewrite Hr1, Hr2, Hs2, Hs1, rev_app_distr, <- !app_assoc. auto.
  - intros (w & Hr & Hs & _). eauto.
  - intros [-> _]. now exists [].
  - intros (mid & Ha & ->). cbn [rest seen]. now apply IHa.
Qed.

Lemma exec_sound (r : regex) (sn s : str) (st : mstate) :
  exec r sn s = Some st ->
  Steps r (MState sn s []) st
  /\ exists w, s = w ++ rest st /\ seen st = rev w ++ sn
               /\ length s - length (rest st) = length w
               /\ firstn (length s - length (rest st)) s = w.
Proof.
  unfold exec. intros H. apply run_sound in H as (st' & HS & [= ->]).
  split; [exact HS|]. apply Steps_text in HS as (w & Hr & Hs).
  cbn [rest seen] in *. exists w. repeat split; auto.
  - rewrite Hr, length_app. lia.
  - rewrite Hr at 2. rewrite Hr at 1. rewrite length_app.
    replace (length w + length (rest st) - length (rest st)) with (length w) by lia.
    now rewrite firstn_app, firstn_all, Nat.sub_diag, firstn_O, app_nil_r.
Qed.

(** ** The global scan *)

(** Passing over the rest of a match. *)
Lemma scan_skip (r : regex) (w : str) : forall sn s,
  scan r (length w) sn (w ++ s) = scan r 0 (rev w ++ sn) s.
Proof.
  induction w as [|c w IH]; intros sn s; [reflexivity|].
  cbn [length app scan rev]. rewrite IH, <- app_assoc. reflexivity.
Qed.

(** The equations of the scan at a position where a match is tried. *)
Lemma scan_miss (r : regex) (sn : str) (c : N) (s : str) :
  exec r sn (c :: s) = None ->
  scan r 0 sn (c :: s) = Lit c :: scan r 0 (c :: sn) s.
Proof. cbn [scan]. now intros ->. Qed.

Lemma scan_hit (r : regex) (sn w s' : str) (st : mstate) :
  w <> [] ->
  exec r sn (w ++ s') = Some st -> rest st = s' ->
  scan r 0 sn (w ++ s') = Hit (mkMatch sn (w ++ s') st) :: scan r 0 (rev w ++ sn) s'.
Proof.
  intros Hw He Hr. destruct w as [|c w]; [easy|]. cbn [app scan].
  cbn [app] in He. rewrite He, Hr.
  replace (length (c :: w ++ s') - length s') with (S (length w))
    by (cbn [length]; rewrite length_app; lia).
  rewrite scan_skip. cbn [rev]. now rewrite <- app_assoc.
Qed.

(** The pieces of a scan, put back together, are the text that was left to
    scan. *)
Lemma scan_partition (r : regex) (s : str) : forall k sn,
  flat_map pieceText (scan r k sn s) = skipn k s.
Proof.
  induction s as [|c s IH]; intros k sn.
  - destruct k; cbn [scan skipn]; [|reflexivity].
    destruct (exec r sn []) as [st|] eqn:He; [|reflexivity].
    reflexivity.
  - destruct k as [|k]; cbn [scan skipn]; [|apply IH].
    destruct (exec r sn (c :: s)) as [st|] eqn:He.
    + apply exec_sound in He as (_ & w & Hs & _ & Hlen & Hw).
      unfold mkMatch.
      destruct (length (c :: s) - length (rest st)) as [|j] eqn:Hj.
      * cbn [flat_map pieceText m_text firstn app]. now rewrite IH.
      * cbn [flat_map pieceText m_text]. rewrite IH.
        cbn [firstn app]. now rewrite firstn_skipn.
    + cbn [flat_map pieceText app]. now rewrite IH.
Qed.

Lemma substitute_empty (l : list piece) :
  substitute [] l = flat_map keptText l.
Proof.
  induction l as [|[c|m] l IH]; cbn; now rewrite ?IH.
Qed.

(* ------------------------------------------------------------------------- *)
(** ** Newline runs *)

Lemma run_split (s : str) :
  s = repeat 10%N (runLength s) ++ skipn (runLength s) s
  /\ noNewlineAhead (skipn (runLength s) s).
Proof.
  induction s as [|c s [IH1 IH2]]; [now split|]. cbn [runLength].
  destruct (N.eqb c 10) eqn:Hc.
  - apply N.eqb_eq in Hc. subst. cbn [repeat skipn app]. split; [now f_equal|exact IH2].
  - cbn. now split.
Qed.

Lemma repeat_shift (c : N) (k : nat) (l : str) :
  repeat c k ++ c :: l = c :: repeat c k ++ l.
Proof. induction k; cbn; [reflexivity|]. now rewrite IHk. Qed.

Lemma exec_newlines (k : nat) (sn s2 : str) :
  noNewlineAhead s2 ->
  exec newlinesPattern sn (repeat 10%N k ++ s2) =
  if 3 <=? k then Some (MState (repeat 10%N k ++ sn) s2 []) else None.
Proof.
  intros Hs2. unfold exec, newlinesPattern. cbn [run seen rest caps].
  enough (H : forall k n sn,
             rep (isChar 10) 3 None n sn (repeat 10%N k ++ s2)
               (fun a b => Some (MState a b [])) =
             if 3 <=? n + k then Some (MState (repeat 10%N k ++ sn) s2 []) else None)
    by (rewrite H; reflexivity).
  clear k sn. induction k as [|k IH]; intros n sn.
  - rewrite Nat.add_0_r. cbn [repeat app].
    destruct s2 as [|c s2]; cbn [rep]; [reflexivity|].
    cbn in Hs2. unfold isChar. rewrite Hs2. reflexivity.
  - cbn [repeat app rep below]. unfold isChar at 1. rewrite N.eqb_refl. cbn [andb].
    rewrite IH. replace (S n + k) with (n + S k) by lia.
    destruct (3 <=? n + S k) eqn:Hk.
    + now rewrite repeat_shift.
    + apply Nat.leb_gt in Hk. destruct (3 <=? n) eqn:Hn; [|reflexivity].
      apply Nat.leb_le in Hn. lia.
Qed.

Lemma collapseRuns_prefix (k : nat) : forall n s,
  collapseRuns n (repeat 10%N k ++ s) = collapseRuns (n + k) s.
Proof.
  induction k as [|k IH]; intros n s; cbn [repeat app collapseRuns].
  - now rewrite Nat.add_0_r.
  - rewrite N.eqb_refl, IH. f_equal. lia.
Qed.

Lemma collapseRuns_emit (n : nat) (s : str) :
  noNewlineAhead s -> collapseRuns n s = emitRun n ++ collapseRuns 0 s.
Proof.
  destruct s as [|c s]; cbn [noNewlineAhead collapseRuns].
  - intros _. unfold emitRun at 2. cbn. now rewrite app_nil_r.
  - intros ->. reflexivity.
Qed.

Lemma collapseRuns_keep (c : N) (s : str) :
  runLength (c :: s) < 3 -> collapseRuns 0 (c :: s) = c :: collapseRuns 0 s.
Proof.
  intros Hk. cbn [collapseRuns runLength] in *.
  destruct (N.eqb c 10) eqn:Hc; [|reflexivity].
  apply N.eqb_eq in Hc. subst.
  destruct (run_split s) as [Hs Hn].
  remember (runLength s) as k eqn:Ek. remember (skipn k s) as s2 eqn:E2.
  clear Ek E2. subst s.
  rewrite 2!(collapseRuns_prefix k). cbn [Nat.add].
  rewrite (@collapseRuns_emit (S k) _ Hn), (@collapseRuns_emit k _ Hn).
  unfold emitRun.
  assert (H1 : (3 <=? S k) = false) by (apply Nat.leb_gt; lia).
  assert (H2 : (3 <=? k) = false) by (apply Nat.leb_gt; lia).
  rewrite H1, H2. reflexivity.
Qed.

(** [s.replace(/\n{3,}/g, '\n\n')] turns every run of three or more newlines
    into exactly two and changes nothing else. *)
Lemma replace_newlines_collapses (s : str) :
  replaceAll newlinesPattern [10; 10]%N s = collapseRuns 0 s.
Proof.
  unfold replaceAll.
  enough (H : forall n s sn,
             length s <= n ->
             substitute [10; 10]%N (scan newlinesPattern 0 sn s) = collapseRuns 0 s)
    by (apply (H (length s)); lia).
  clear s. induction n as [|n IH]; intros s sn Hle.
  - destruct s; [|cbn in Hle; lia]. reflexivity.
  - destruct s as [|c s]; [reflexivity|].
    destruct (run_split (c :: s)) as [Hs Hno].
    set (k := runLength (c :: s)) in *. set (s2 := skipn k (c :: s)) in *.
    destruct (3 <=? k) eqn:Hk.
    + apply Nat.leb_le in Hk.
      assert (Hl2 : length s2 <= n).
      { apply (f_equal (@length N)) in Hs. rewrite length_app, repeat_length in Hs.
        cbn [length] in *. lia. }
      rewrite Hs. erewrite scan_hit.
      * cbn [substitute getSubstitution]. rewrite IH by exact Hl2.
        rewrite (collapseRuns_prefix k). cbn [Nat.add].
        rewrite (@collapseRuns_emit k _ Hno).
        unfold emitRun. apply Nat.leb_le in Hk. now rewrite Hk.
      * destruct k; [lia|discriminate].
      * rewrite (@exec_newlines _ _ _ Hno). apply Nat.leb_le in Hk. now rewrite Hk.
      * reflexivity.
    + assert (He : exec newlinesPattern sn (c :: s) = None).
      { rewrite Hs, (@exec_newlines _ _ _ Hno). now rewrite Hk. }
      rewrite scan_miss by exact He. cbn [substitute].
      rewrite IH by (cbn [length] in Hle; lia).
      symmetry. apply collapseRuns_keep. now apply Nat.leb_gt.
Qed.

(** ** [trim] *)

Lemma trimStart_spec (s : str) :
  exists pre, s = pre ++ trimStart s /\ Forall (fun c => isSpace c = true) pre
              /\ match trimStart s with
                 | c :: _ => isSpace c = false
                 | [] => True
                 end.
Proof.
  induction s as [|c s (pre & Hs & Hpre & Hhd)]; [now exists []|].
  cbn [trimStart]. destruct (isSpace c) eqn:Hc.
  - exists (c :: pre). cbn [app]. repeat split; auto. now f_equal.
  - exists []. cbn. rewrite Hc. auto.
Qed.

Lemma trimStart_keeps_last (s : str) (c d : N) :
  isSpace c = false -> trimStart (s ++ [c]) <> [] /\ last (trimStart (s ++ [c])) d = c.
Proof.
  intros Hc. induction s as [|x s IH]; cbn [app trimStart].
  - rewrite Hc. now split.
  - destruct (isSpace x); [exact IH|]. split; [discriminate|].
    change (x :: s ++ [c]) with ((x :: s) ++ [c]). apply last_last.
Qed.

(** [trim] removes whitespace from both ends and nothing else. *)
Lemma trim_spec (s : str) :
  exists pre post,
    s = pre ++ trim s ++ post
    /\ Forall (fun c => isSpace c = true) pre
    /\ Forall (fun c => isSpace c = true) post
    /\ Trimmed (trim s).
Proof.
  unfold trim, trimEnd.
  destruct (trimStart_spec s) as (pre & Hs & Hpre & Hhd).
  destruct (trimStart_spec (rev (trimStart s))) as (tsop & Hr & Hpost & Hlast).
  exists pre, (rev tsop). repeat split; auto.
  - rewrite Hs at 1. f_equal. rewrite <- rev_app_distr, <- Hr. now rewrite rev_involutive.
  - apply Forall_rev. exact Hpost.
  - destruct (trimStart s) as [|c t] eqn:Ht; [exact I|].
    cbn [rev] in *. destruct (@trimStart_keeps_last (rev t) c c Hhd) as [Hne Hl].
    destruct (trimStart (rev t ++ [c])) as [|e u] eqn:Hu; [easy|].
    clear Hne. cbn [rev].
    unfold Trimmed.
    destruct (rev u ++ [e]) as [|f v] eqn:Hv; [exact I|].
    assert (Hf : f = c).
    { apply (f_equal (@rev N)) in Hv. rewrite rev_app_distr, rev_involutive in Hv.
      cbn [rev app] in Hv. rewrite Hv in Hl.
      rewrite last_last in Hl. exact Hl. }
    subst f. split; [exact Hhd|].
    rewrite <- Hv, last_last. exact Hlast.
Qed.

(* ------------------------------------------------------------------------- *)
(** ** Image tags and their attributes *)

(** Every match reported by a scan is a successful attempt at some position. *)
Lemma scan_hits_exec (r : regex) (m : rmatch) (s : str) : forall k sn,
  In m (hits (scan r k sn s)) ->
  exists sn' s' st, exec r sn' s' = Some st /\ m = mkMatch sn' s' st.
Proof.
  induction s as [|c s IH]; intros k sn.
  - destruct k; cbn [scan hits]; [|easy].
    destruct (exec r sn []) as [st|] eqn:He; cbn [hits In]; [|easy].
    intros [<-|[]]. eauto.
  - destruct k as [|k]; cbn [scan]; [|apply IH].
    destruct (exec r sn (c :: s)) as [st|] eqn:He.
    + destruct (length (c :: s) - length (rest st)); cbn [hits In];
        (intros [<-|H]; [eauto | now apply IH in H]).
    + cbn [hits]. apply IH.
Qed.

(** A literal part of a pattern, matched up to letter case. *)
Lemma Steps_chars (pat : str) : forall st st',
  Steps (chars isCI pat) st st' ->
  exists nm, sameCI pat nm /\ rest st = nm ++ rest st'
             /\ seen st' = rev nm ++ seen st /\ caps st' = caps st.
Proof.
  induction pat as [|a pat IH]; intros st st'; cbn [chars Steps].
  - intros ->. exists []. repeat split. constructor.
  - intros (mid & (c & Hr & Hc & Hs & Hcs) & Hrest).
    apply IH in Hrest as (nm & Hnm & Hr' & Hs' & Hcs').
    exists (c :: nm). repeat split.
    + now constructor.
    + rewrite Hr, Hr'. reflexivity.
    + rewrite Hs', Hs. cbn [rev]. now rewrite <- app_assoc.
    + congruence.
Qed.

Lemma run_chars (A : Type) (pat nm : str) :
  sameCI pat nm ->
  forall sn s cs (k : mstate -> option A),
    run (chars isCI pat) (MState sn (nm ++ s) cs) k = k (MState (rev nm ++ sn) s cs).
Proof.
  induction 1 as [|a c pat nm Hc _ IH]; intros sn s cs k; [reflexivity|].
  cbn [chars run rest seen caps app]. rewrite Hc, IH. cbn [rev].
  now rewrite <- app_assoc.
Qed.

(** A recognised tag opens with [<img] in any letter case and whitespace,
    closes with its only [>], and holds no other [>]. *)
Lemma exec_imgTag_shape (sn s : str) (st : mstate) :
  exec imgTagPattern sn s = Some st ->
  ImgTagShape (m_text (mkMatch sn s st)).
Proof.
  intros He. destruct (exec_sound _ _ _ He) as (HS & w & Hs & _ & _ & Hw).
  unfold mkMatch. cbn [m_text]. rewrite Hw. clear Hw He.
  unfold imgTagPattern in HS. cbn [patSeq Steps] in HS.
  destruct HS as (m1 & (c & Hr1 & Hc & Hs1 & Hcs1)
                     & m2 & Hnm
                     & m3 & (w1 & Hr3 & _ & _ & Hw1 & Hlen1 & _)
                     & m4 & (w2 & Hr4 & _ & _ & Hw2 & _ & _)
                     & m5 & (w3 & Hr5 & _ & _ & Hw3 & _ & _)
                     & (c' & Hr6 & Hc' & _)).
  apply Steps_chars in Hnm as (nm & Hnm & Hr2 & _).
  cbn [rest] in Hr1. unfold isChar in Hc, Hc'.
  apply N.eqb_eq in Hc, Hc'. subst c c'.
  assert (Hall : s = (60%N :: nm ++ w1 ++ (w2 ++ w3) ++ [62%N]) ++ rest st).
  { rewrite Hr1, Hr2, Hr3, Hr4, Hr5, Hr6. cbn [app].
    now rewrite <- !app_assoc. }
  rewrite Hs in Hall. apply app_inv_tail in Hall. subst w.
  exists nm, w1, (w2 ++ w3). repeat split; auto.
  - destruct w1; [cbn in Hlen1; lia|discriminate].
  - apply Forall_app. split; [exact Hw2|].
    eapply Forall_impl; [|exact Hw3]. cbn. unfold isChar, notGt.
    intros a Ha. apply N.eqb_eq in Ha. now subst.
Qed.

Lemma imgTags_shape (text tag : str) :
  In tag (imgTags text) -> ImgTagShape tag.
Proof.
  unfold imgTags, matchAll. intros (m & <- & Hm)%in_map_iff.
  apply scan_hits_exec in Hm as (sn & s & st & He & ->).
  now apply exec_imgTag_shape.
Qed.

(** What one attempt of an attribute pattern finds, and that it finds it
    whenever it is there. *)
Lemma exec_attr_sound (attr sn s : str) (st : mstate) :
  exec (attrPattern attr) sn s = Some st ->
  exists nm q1 v q2,
    s = nm ++ 61%N :: q1 :: v ++ q2 :: rest st
    /\ sameCI attr nm /\ isQuote q1 = true /\ isQuote q2 = true
    /\ v <> [] /\ Forall (fun c => notQuote c = true) v
    /\ caps st = [v].
Proof.
  intros He. destruct (exec_sound _ _ _ He) as (HS & _). clear He.
  unfold attrPattern in HS. cbn [patSeq Steps] in HS.
  destruct HS as (m1 & Hnm
                     & m2 & (c & Hr2 & Hc & Hs2 & Hcs2)
                     & m3 & (q1 & Hr3 & Hq1 & Hs3 & Hcs3)
                     & m4 & (m5 & (v & Hr5 & Hs5 & Hcs5 & Hv & Hlen & _) & ->)
                     & (q2 & Hr6 & Hq2 & Hs6 & Hcs6)).
  apply Steps_chars in Hnm as (nm & Hnm & Hr1 & _ & Hcs1).
  cbn [rest seen caps] in *. unfold isChar in Hc. apply N.eqb_eq in Hc. subst c.
  exists nm, q1, v, q2. repeat split; auto.
  - rewrite Hr1, Hr2, Hr3, Hr5, Hr6. reflexivity.
  - destruct v; [cbn in Hlen; lia|discriminate].
  - rewrite Hcs6, Hcs5, Hcs3, Hcs2, Hcs1. cbn [app]. f_equal.
    rewrite Hs5, length_app, length_rev.
    replace (length v + length (seen m3) - length (seen m3)) with (length v) by lia.
    rewrite firstn_app, length_rev, Nat.sub_diag, firstn_O, app_nil_r.
    rewrite <- (length_rev v), firstn_all. apply rev_involutive.
Qed.

Lemma exec_attr_complete (attr sn nm v post : str) (q1 q2 : N) :
  sameCI attr nm -> isQuote q1 = true -> isQuote q2 = true ->
  v <> [] -> Forall (fun c => notQuote c = true) v ->
  exec (attrPattern attr) sn (nm ++ 61%N :: q1 :: v ++ q2 :: post) =
  Some (MState (q2 :: rev v ++ q1 :: 61%N :: rev nm ++ sn) post [v]).
Proof.
  intros Hnm Hq1 Hq2 Hne Hv. unfold exec, attrPattern. cbn [patSeq run].
  rewrite (run_chars Hnm). cbn [run rest seen caps]. unfold isChar at 1.
  rewrite N.eqb_refl, Hq1.
  erewrite rep_greedy; [reflexivity|exact Hv| | |].
  - cbn. unfold notQuote. now rewrite Hq2.
  - destruct v; [easy|cbn; lia].
  - cbn [rest seen caps]. rewrite Hq2. cbn [app]. do 3 f_equal.
    rewrite length_app, length_rev.
    replace (length v + length (q1 :: 61%N :: rev nm ++ sn)
             - length (q1 :: 61%N :: rev nm ++ sn)) with (length v) by lia.
    rewrite firstn_app, length_rev, Nat.sub_diag, firstn_O, app_nil_r.
    rewrite <- (length_rev v), firstn_all. now rewrite rev_involutive.
Qed.

(** The leftmost match. *)
Lemma search_some (r : regex) (s : str) : forall sn m,
  search r sn s = Some m ->
  exists pre s1 st,
    s = pre ++ s1 /\ exec r (rev pre ++ sn) s1 = Some st
    /\ m = mkMatch (rev pre ++ sn) s1 st
    /\ forall pre' s1', s = pre' ++ s1' -> length pre' < length pre ->
                        exec r (rev pre' ++ sn) s1' = None.
Proof.
  induction s as [|c s IH]; intros sn m; cbn [search].
  - destruct (exec r sn []) as [st|] eqn:He; [|discriminate].
    intros [= <-]. exists [], [], st. repeat split; auto.
    intros pre' s1' _ H. cbn in H. lia.
  - destruct (exec r sn (c :: s)) as [st|] eqn:He.
    + intros [= <-]. exists [], (c :: s), st. repeat split; auto.
      intros pre' s1' _ H. cbn in H. lia.
    + intros (pre & s1 & st & -> & Hex & -> & Hmin)%IH.
      exists (c :: pre), s1, st. cbn [rev]. rewrite <- !app_assoc. cbn [app].
      repeat split; auto.
      intros [|c' pre'] s1' Heq Hlt.
      * cbn in Heq. subst s1'. exact He.
      * cbn [app] in Heq. injection Heq as -> Heq. cbn [rev].
        rewrite <- app_assoc. apply Hmin; [exact Heq|cbn in Hlt; lia].
Qed.

Lemma search_none (r : regex) (s : str) : forall sn,
  search r sn s = None ->
  forall pre s1, s = pre ++ s1 -> exec r (rev pre ++ sn) s1 = None.
Proof.
  induction s as [|c s IH]; intros sn; cbn [search].
  - destruct (exec r sn []) eqn:He; [discriminate|]. intros _ pre s1 Heq.
    symmetry in Heq. apply app_eq_nil in Heq as [-> ->]. exact He.
  - destruct (exec r sn (c :: s)) eqn:He; [discriminate|]. intros Hs [|c' pre] s1 Heq.
    + cbn in Heq. now subst.
    + cbn [app] in Heq. injection Heq as -> Heq. cbn [rev]. rewrite <- app_assoc.
      now apply IH.
Qed.

(** The value read for an attribute is the one of the leftmost place of the
    tag that has the form [AttrAt]; there is no value exactly when the tag has
    no such place. *)
Lemma attrValue_some (attr tag v : str) :
  attrValue attr tag = Some v <->
  exists pre post,
    AttrAt attr tag pre v post
    /\ forall pre' v' post', AttrAt attr tag pre' v' post' -> length pre <= length pre'.
Proof.
  unfold attrValue, matchFirst. split.
  - destruct (search (attrPattern attr) [] tag) as [m|] eqn:Hs; [|discriminate].
    intros [= <-].
    apply search_some in Hs as (pre & s1 & st & -> & Hex & -> & Hmin).
    destruct (exec_attr_sound _ _ _ Hex) as (nm & q1 & v & q2 & -> & Hnm & Hq1 & Hq2 & Hne & Hv & Hc).
    exists pre, (rest st). split.
    + unfold group1, mkMatch. cbn [m_caps]. rewrite Hc. cbn [nth].
      exists nm, q1, q2. repeat split; auto.
    + intros pre' v' post' (nm' & q1' & q2' & Heq & Hnm' & Hq1' & Hq2' & Hne' & Hv').
      destruct (Nat.le_gt_cases (length pre) (length pre')) as [|Hlt]; [assumption|].
      specialize (Hmin _ _ Heq Hlt).
      rewrite app_nil_r in Hmin. rewrite exec_attr_complete in Hmin by assumption.
      discriminate.
  - intros (pre & post & (nm & q1 & q2 & Heq & Hnm & Hq1 & Hq2 & Hne & Hv) & Hmin).
    destruct (search (attrPattern attr) [] tag) as [m|] eqn:Hs.
    + apply search_some in Hs as (pre0 & s1 & st & Heq0 & Hex & -> & Hmin0).
      destruct (exec_attr_sound _ _ _ Hex)
        as (nm0 & q10 & v0 & q20 & Hs1 & Hnm0 & Hq10 & Hq20 & Hne0 & Hv0 & Hc0).
      assert (Hle : length pre <= length pre0).
      { apply (Hmin pre0 v0 (rest st)). exists nm0, q10, q20. subst s1.
        repeat split; auto. }
      assert (Hge : length pre0 <= length pre).
      { destruct (Nat.le_gt_cases (length pre0) (length pre)) as [|Hlt]; [assumption|].
        specialize (Hmin0 _ _ Heq Hlt).
        rewrite app_nil_r in Hmin0. rewrite exec_attr_complete in Hmin0 by assumption.
        discriminate. }
      assert (Hpre : pre0 = pre /\ s1 = nm ++ 61%N :: q1 :: v ++ q2 :: post).
      { rewrite Heq in Heq0. apply app_eq_app in Heq0 as (l & [[-> H]|[-> H]]).
        - rewrite length_app in Hle. destruct l; [|cbn in Hle; lia].
          rewrite app_nil_r. split; [reflexivity|]. now cbn in H.
        - rewrite length_app in Hge. destruct l; [|cbn in Hge; lia].
          rewrite app_nil_r. split; [reflexivity|]. now cbn in H. }
      destruct Hpre as [-> ->].
      rewrite app_nil_r in Hex. rewrite exec_attr_complete in Hex by assumption.
      injection Hex as <-. reflexivity.
    + exfalso. pose proof (@search_none _ _ _ Hs pre _ Heq) as Hn.
      rewrite app_nil_r in Hn. rewrite exec_attr_complete in Hn by assumption.
      discriminate.
Qed.

Lemma attrValue_none (attr tag : str) :
  attrValue attr tag = None <-> ~ exists pre v post, AttrAt attr tag pre v post.
Proof.
  split.
  - intros Hn (pre & v & post & nm & q1 & q2 & Heq & Hnm & Hq1 & Hq2 & Hne & Hv).
    unfold attrValue, matchFirst in Hn.
    destruct (search (attrPattern attr) [] tag) eqn:Hs; [discriminate|].
    pose proof (@search_none _ _ _ Hs pre _ Heq) as Hx.
    rewrite app_nil_r in Hx. rewrite exec_attr_complete in Hx by assumption.
    discriminate.
  - intros Hno. destruct (attrValue attr tag) as [v|] eqn:Hv; [|reflexivity].
    exfalso. apply Hno. apply attrValue_some in Hv as (pre & post & H & _). eauto.
Qed.

(** The loop body pushes the block of the tag, and nothing else. *)
Lemma pushImage_tagBlock (blocks : list SlackBlock) (tag : str) :
  pushImage blocks tag = blocks ++ tagBlock tag.
Proof.
  unfold pushImage, tagBlock, attrValue, srcPattern, altPattern.
  destruct (matchFirst (attrPattern (lit "src")) tag) as [sm|] eqn:Hs;
    [|now rewrite app_nil_r].
  assert (Hne : nonEmpty (group1 sm) = true).
  { assert (Hv : attrValue (lit "src") tag = Some (group1 sm))
      by (unfold attrValue; now rewrite Hs).
    apply attrValue_some in Hv as (pre & post & (nm & q1 & q2 & _ & _ & _ & _ & Hne & _) & _).
    now destruct (group1 sm). }
  rewrite Hne. now destruct (matchFirst (attrPattern (lit "alt")) tag).
Qed.

Lemma fold_pushImage (tags : list str) : forall blocks,
  fold_left pushImage tags blocks = blocks ++ flat_map tagBlock tags.
Proof.
  induction tags as [|tag tags IH]; intros blocks; cbn [fold_left flat_map].
  - now rewrite app_nil_r.
  - now rewrite IH, pushImage_tagBlock, <- app_assoc.
Qed.

Lemma tagBlock_images (tag : str) : Forall (fun b => isImage b = true) (tagBlock tag).
Proof.
  unfold tagBlock. destruct (attrValue (lit "src") tag); repeat constructor.
Qed.

Lemma imageBlocks_eq (text : str) :
  imageBlocks (extractAndConvertImages text) = flat_map tagBlock (imgTags text).
Proof. unfold extractAndConvertImages. cbn [imageBlocks]. apply fold_pushImage. Qed.

Lemma imageBlocks_images (text : str) :
  Forall (fun b => isImage b = true) (imageBlocks (extractAndConvertImages text)).
Proof.
  rewrite imageBlocks_eq. induction (imgTags text) as [|tag tags IH]; cbn [flat_map].
  - constructor.
  - apply Forall_app. split; [apply tagBlock_images|exact IH].
Qed.

(* ------------------------------------------------------------------------- *)
(** ** Image extraction *)

(** C5, as stated, fails: an alt text that holds an apostrophe between double
    quotes is cut at the apostrophe, and an alt attribute that is present
    with an empty value yields the default text. *)
Lemma image_alt_counterexample :
  let tag1 := lit "<img src=" ++ Demo.dq ++ lit "a.png" ++ Demo.dq
              ++ lit " alt=" ++ Demo.dq ++ lit "it's here" ++ Demo.dq ++ lit ">" in
  let tag2 := lit "<img src=" ++ Demo.dq ++ lit "a.png" ++ Demo.dq
              ++ lit " alt=" ++ Demo.dq ++ Demo.dq ++ lit ">" in
  (HtmlAttr (lit "alt") (lit "it's here") tag1
   /\ imageBlocks (extractAndConvertImages tag1)
      = [ImageBlock (lit "a.png") (lit "it")])
  /\ (HtmlAttr (lit "alt") [] tag2
      /\ imageBlocks (extractAndConvertImages tag2)
         = [ImageBlock (lit "a.png") (lit "Image")]).
Proof.
  cbv zeta. split; split; try reflexivity.
  - exists (lit "<img src=" ++ Demo.dq ++ lit "a.png" ++ Demo.dq), 34%N, (lit ">").
    repeat split. cbn. intuition discriminate.
  - exists (lit "<img src=" ++ Demo.dq ++ lit "a.png" ++ Demo.dq), 34%N, (lit ">").
    repeat split. cbn. tauto.
Qed.

(** C5, amended.  The recognised tags and the kept characters partition the
    input in order; every recognised tag has the shape of an image tag; there
    is one image block per recognised tag in which the src pattern finds a
    value, in order of appearance; that value, and the alt text likewise, is
    the non-empty quote-free run between two quote characters that follows
    the leftmost such [src=] (or [alt=]) of the tag, and the alt text is
    "Image" when the tag has no such run; the stripped text is the kept
    characters with every run of three or more newlines collapsed to exactly
    two, trimmed of whitespace at both ends. *)
Theorem extractAndConvertImages_spec (text : str) :
  let r := extractAndConvertImages text in
  let pieces := scan imgTagPattern 0 [] text in
  flat_map pieceText pieces = text
  /\ imgTags text = map m_text (hits pieces)
  /\ (forall tag, In tag (imgTags text) -> ImgTagShape tag)
  /\ imageBlocks r = flat_map tagBlock (imgTags text)
  /\ (forall tag,
        tagBlock tag =
        match attrValue (lit "src") tag with
        | Some url =>
            [ImageBlock url (match attrValue (lit "alt") tag with
                             | Some a => a
                             | None => lit "Image"
                             end)]
        | None => []
        end)
  /\ (forall attr tag v,
        attrValue attr tag = Some v <->
        exists pre post,
          AttrAt attr tag pre v post
          /\ forall pre' v' post',
               AttrAt attr tag pre' v' post' -> length pre <= length pre')
  /\ (forall attr tag,
        attrValue attr tag = None <->
        ~ exists pre v post, AttrAt attr tag pre v post)
  /\ textWithoutImages r = trim (collapseRuns 0 (flat_map keptText pieces))
  /\ Trimmed (textWithoutImages r)
  /\ (exists pre post,
        collapseRuns 0 (flat_map keptText pieces) = pre ++ textWithoutImages r ++ post
        /\ Forall (fun c => isSpace c = true) pre
        /\ Forall (fun c => isSpace c = true) post).
Proof.
  cbv zeta.
  assert (Ht : textWithoutImages (extractAndConvertImages text)
               = trim (collapseRuns 0
                         (flat_map keptText (scan imgTagPattern 0 [] text)))).
  { unfold extractAndConvertImages. cbn [textWithoutImages].
    rewrite replace_newlines_collapses. unfold replaceAll at 1.
    now rewrite substitute_empty. }
  repeat match goal with |- _ /\ _ => split end.
  - apply (scan_partition imgTagPattern text 0 []).
  - reflexivity.
  - apply imgTags_shape.
  - apply imageBlocks_eq.
  - reflexivity.
  - apply attrValue_some.
  - apply attrValue_none.
  - exact Ht.
  - rewrite Ht.
    destruct (trim_spec (collapseRuns 0 (flat_map keptText (scan imgTagPattern 0 [] text))))
      as (pre & post & _ & _ & _ & H). exact H.
  - rewrite Ht.
    destruct (trim_spec (collapseRuns 0 (flat_map keptText (scan imgTagPattern 0 [] text))))
      as (pre & post & H1 & H2 & H3 & _). eauto.
Qed.

Lemma extractAndConvertImages_spec_witness :
  ImgTagShape (lit "<img src='a.png' />")
  /\ extractAndConvertImages (lit "text <img src='a.png' />")
     = {| textWithoutImages := lit "text";
          imageBlocks := [ImageBlock (lit "a.png") (lit "Image")] |}.
Proof.
  split; [|reflexivity].
  apply (proj1 (proj2 (proj2 (extractAndConvertImages_spec (lit "text <img src='a.png' />"))))).
  cbn. tauto.
Defined.

(** The examples of the specification. *)
Example extract_example_alt :
  extractAndConvertImages
    (lit "text <img src=" ++ Demo.dq ++ lit "http://x/y.png" ++ Demo.dq
     ++ lit " alt=" ++ Demo.dq ++ lit "Z" ++ Demo.dq ++ lit " />")
  = {| textWithoutImages := lit "text";
       imageBlocks := [ImageBlock (lit "http://x/y.png") (lit "Z")] |}.
Proof. reflexivity. Qed.

Example extract_example_four_newlines :
  textWithoutImages
    (extractAndConvertImages (lit "a" ++ [10; 10]%N ++ lit "<img src='x'>"
                              ++ [10; 10]%N ++ lit "b"))
  = lit "a" ++ [10; 10]%N ++ lit "b".
Proof. reflexivity. Qed.

(* ------------------------------------------------------------------------- *)
(** ** Block builders *)

Lemma images_only (imgs : list SlackBlock) :
  Forall (fun b => isImage b = true) imgs ->
  filter isContext imgs = [] /\ filter isSection imgs = [].
Proof.
  induction 1 as [|b imgs Hb _ [IH1 IH2]]; [now split|].
  destruct b; try discriminate. cbn. now split.
Qed.

Lemma shaped_intro (sec imgs : list SlackBlock) (footer : str) (b : bool) :
  Forall (fun x => isImage x = true) imgs ->
  (if b then exists t, sec = [SectionBlock t] else sec = []) ->
  Shaped (sec ++ imgs ++ [ContextBlock footer]) imgs b.
Proof.
  intros Himgs Hsec. exists sec, footer.
  destruct (images_only Himgs) as [Hc Hs].
  assert (Hsec' : sec = [] \/ exists t, sec = [SectionBlock t])
    by (destruct b; auto).
  repeat split; auto.
  - rewrite !filter_app, Hc.
    destruct Hsec' as [->|[t ->]]; reflexivity.
  - rewrite !filter_app, Hs.
    destruct Hsec' as [->|[t ->]]; cbn; lia.
  - now rewrite app_assoc, last_last.
Qed.

(** C6, as stated, fails: the review builder emits its text section even
    when nothing remains of the body. *)
Lemma review_section_counterexample :
  nonEmpty (textWithoutImages (extractAndConvertImages [])) = false
  /\ filter isSection
       (buildReviewBlocks (lit ":ok:") (lit "Approved") [] (lit "u") (lit "t")
          (lit "r") (lit "bob"))
     = [SectionBlock (lit ":ok: *Approved*")].
Proof. split; reflexivity. Qed.

(** C6, amended.  Each builder returns an optional text section, then the
    image blocks extracted from the body in order, then one context block,
    which is the last block and the only context block; there is at most one
    text section.  The review-request and the review builder always emit the
    text section; the comment builder emits it exactly when the text left
    after image extraction is not empty. *)
Theorem builders_shape (body a b c d e f : str) :
  Shaped (buildCommentBlocks body a b c d)
         (imageBlocks (extractAndConvertImages body))
         (nonEmpty (textWithoutImages (extractAndConvertImages body)))
  /\ Shaped (buildReviewRequestBlocks a b c body d e f)
            (imageBlocks (extractAndConvertImages (trim body)))
            true
  /\ Shaped (buildReviewBlocks a b body c d e f)
            (imageBlocks (extractAndConvertImages body))
            true.
Proof.
  repeat split.
  - unfold buildCommentBlocks. cbv zeta.
    destruct (nonEmpty (textWithoutImages (extractAndConvertImages body))) eqn:Hn.
    + rewrite <- !app_assoc.
      apply shaped_intro with (b := true); [apply imageBlocks_images|eauto].
    + cbn [app]. rewrite <- (app_nil_l (imageBlocks _ ++ _)).
      apply shaped_intro with (b := false); [apply imageBlocks_images|reflexivity].
  - unfold buildReviewRequestBlocks. cbv zeta. rewrite <- !app_assoc.
    apply shaped_intro with (b := true); [apply imageBlocks_images|eauto].
  - unfold buildReviewBlocks. cbv zeta. rewrite <- !app_assoc.
    apply shaped_intro with (b := true); [apply imageBlocks_images|eauto].
Qed.

(* ------------------------------------------------------------------------- *)
(** ** Mentions *)

Lemma maximal_run (p : N -> bool) (s : str) :
  exists w s',
    s = w ++ s' /\ Forall (fun c => p c = true) w
    /\ match s' with c :: _ => p c = false | [] => True end.
Proof.
  induction s as [|c s (w & s' & -> & Hw & Hs')].
  - exists [], []. repeat split; constructor.
  - destruct (p c) eqn:Hc.
    + exists (c :: w), s'. repeat split; auto.
    + exists [], (c :: w ++ s'). repeat split; auto.
Qed.

(** The mention loop returns a text: no fault of a lookup reaches it. *)
Lemma mentionLoop_returns (E : Env) (p : MentionParams) (mentions : list rmatch) :
  forall text h, exists text' evs, mentionLoop E p mentions text h = (Ret text', evs).
Proof.
  induction mentions as [|m mentions IH]; intros text h; cbn [mentionLoop].
  - now exists text, [].
  - destruct (findSlackUser_resolves E
                {| githubUsername := group1 m; slackToken := mp_slackToken p;
                   userMapping := mp_userMapping p |} h) as (r & e1 & Hr & _).
    unfold bind at 1. rewrite Hr. destruct r as [su|].
    + unfold bind at 1, info at 1.
      destruct (IH (replaceAll (mentionRegExp (group1 m)) (slackTag su) text)
                  ((h ++ e1) ++ [EvInfo (checkMark ++ lit " Tagged " ++ group1 m
                                         ++ lit " as " ++ slackTag su)]))
        as (t' & e2 & ->).
      eauto.
    + destruct (IH text (h ++ e1)) as (t' & e2 & ->). eauto.
Qed.

Lemma processMentions_returns (E : Env) (p : MentionParams) (h : list event) :
  exists text' evs, processMentions E p h = (Ret text', evs).
Proof.
  unfold processMentions.
  destruct (matchAll mentionPattern (mp_text p)) as [|m ms] eqn:Hm.
  - now exists (mp_text p), [].
  - unfold bind, info.
    destruct (mentionLoop_returns E p (m :: ms) (mp_text p)
                (h ++ [EvInfo (lit "Found " ++ ofNat (length (m :: ms))
                               ++ lit " mention(s): "
                               ++ join (lit ", ") (map group1 (m :: ms)))]))
      as (t' & e & ->).
    eauto.
Qed.

(** A text without [@] has no mention and is returned as it is. *)
Lemma processMentions_no_mention (E : Env) (p : MentionParams) (h : list event) :
  matchAll mentionPattern (mp_text p) = [] ->
  processMentions E p h = (Ret (mp_text p), []).
Proof. unfold processMentions. now intros ->. Qed.

(** The specification's example: a resolvable mention becomes a tag, an
    unresolvable one stays as it is. *)
Example processMentions_example :
  fst (processMentions Demo.world (Demo.mentionsIn (lit "hi @ann")) [])
  = Ret (lit "hi <@U1>")
  /\ fst (processMentions Demo.world (Demo.mentionsIn (lit "hi @bob")) [])
     = Ret (lit "hi @bob").
Proof. split; reflexivity. Qed.

(** C4 at the failing input: [@ann] resolves and [@ann-lee] does not, yet the
    unresolved mention is rewritten, because the word boundary that closes the
    replacement pattern holds before a hyphen while the mention pattern takes
    the hyphen as part of the name. *)
Theorem mention_prefix_clobbered :
  map group1 (matchAll mentionPattern (lit "@ann please ping @ann-lee"))
  = [lit "ann"; lit "ann-lee"]
  /\ fst (findSlackUser Demo.world (Demo.lookup (lit "ann-lee")) []) = Ret None
  /\ fst (processMentions Demo.world
            (Demo.mentionsIn (lit "@ann please ping @ann-lee")) [])
     = Ret (lit "<@U1> please ping <@U1>-lee").
Proof. repeat split. Qed.

(** C10.  The mention pattern matches at an [@] whatever stands before it, so
    in [user@domain] the part [domain] is taken as a mention; when it
    resolves, every occurrence of [@domain] that ends at a word boundary is
    replaced by the tag, the one inside [user@domain] included. *)
Theorem mention_without_left_boundary :
  (forall sn c s, isMentionChar c = true ->
     exists st, exec mentionPattern sn (64%N :: c :: s) = Some st)
  /\ map group1 (matchAll mentionPattern (lit "user@domain, cc @domain"))
     = [lit "domain"; lit "domain"]
  /\ fst (findSlackUser Demo.world (Demo.lookup (lit "domain")) [])
     = Ret (Some Demo.domainUser)
  /\ fst (processMentions Demo.world (Demo.mentionsIn (lit "user@domain")) [])
     = Ret (lit "user<@U2>")
  /\ fst (processMentions Demo.world
            (Demo.mentionsIn (lit "user@domain, cc @domain")) [])
     = Ret (lit "user<@U2>, cc <@U2>").
Proof.
  split; [|repeat split].
  intros sn c s Hc. unfold exec, mentionPattern. cbn [run rest seen caps].
  unfold isChar at 1. rewrite N.eqb_refl.
  destruct (maximal_run isMentionChar s) as (w & s' & -> & Hw & Hs').
  eexists. change (c :: w ++ s') with ((c :: w) ++ s').
  apply rep_greedy; [now constructor|exact Hs'|cbn; lia|reflexivity].
Qed.

Lemma mention_without_left_boundary_witness :
  exists st, exec mentionPattern (rev (lit "user")) (lit "@domain") = Some st.
Proof.
  apply (proj1 mention_without_left_boundary (rev (lit "user")) 100%N (lit "omain")).
  reflexivity.
Defined.

(* ------------------------------------------------------------------------- *)
(** ** More on the resolver *)

(** X1.  When reading the mapping at the user name gives nothing truthy (no
    mapping is supplied, or the parsed value has neither an entry nor an
    inherited or indexed member of that name), the GitHub user has a
    non-empty email and Slack answers the email lookup with a user, that user
    is returned; the run is the GitHub fetch, the email lookup and the
    success message, so the member list is not requested. *)
Theorem email_match_when_unmapped (E : Env) (p : FindParams) (h : list event)
    (gu : GitHubUser) (mail : str) (d : UserResp) (user : SlackUser) :
  mappedId E p = None ->
  github_getByUsername E h (githubUsername p) = Resp gu ->
  email gu = Some mail ->
  mail <> [] ->
  slack_lookupByEmail E (h ++ [EvGetByUsername (githubUsername p) (Resp gu)])
    (slackToken p) mail = Resp d ->
  ur_ok d = true ->
  ur_user d = Some user ->
  findSlackUser E p h =
  (Ret (Some user),
   [EvGetByUsername (githubUsername p) (Resp gu); EvLookupByEmail mail (Resp d);
    EvInfo (msgByEmail (githubUsername p))]).
Proof.
  intros Hid Hg Hmail Hne Hc Hok Hu.
  assert (Hr : resolved d = Some user) by (unfold resolved; now rewrite Hok).
  assert (Ht : truthyS (email gu) = true) by (rewrite Hmail; now destruct mail).
  destruct (findSlackUser_resolves E p h) as (r & evs & Hrun & HR).
  rewrite Hrun.
  invert_run HR; try congruence; rewrite ?app_nil_r in *; cbn [app] in *;
    (match goal with
     | H : github_getByUsername _ _ _ = _ |- _ =>
         rewrite Hg in H; try discriminate H; injection H as <-
     end);
    try congruence;
    (match goal with
     | H : email gu = Some ?m |- _ => assert (m = mail) as -> by congruence
     end);
    (match goal with
     | H : slack_lookupByEmail _ _ _ _ = _ |- _ =>
         rewrite Hc in H; try discriminate H; injection H as <-
     end);
    congruence.
Qed.

Lemma email_match_when_unmapped_witness :
  findSlackUser Demo2.world (Demo2.lookup (lit "dave")) [] =
  (Ret (Some Demo2.dave),
   [EvGetByUsername (lit "dave")
      (Resp {| login := lit "dave"; gh_name := None;
               email := Some (lit "dave@example.com") |});
    EvLookupByEmail (lit "dave@example.com")
      (Resp {| ur_ok := true; ur_user := Some Demo2.dave |});
    EvInfo (msgByEmail (lit "dave"))]).
Proof.
  apply (@email_match_when_unmapped Demo2.world (Demo2.lookup (lit "dave")) []
           _ (lit "dave@example.com") _ Demo2.dave);
    solve [reflexivity | discriminate].
Defined.

(** The first member that the predicate accepts. *)
Lemma find_first (A : Type) (f : A -> bool) (l : list A) (x : A) :
  find f l = Some x <->
  exists l1 l2, l = l1 ++ x :: l2 /\ f x = true /\ Forall (fun y => f y = false) l1.
Proof.
  induction l as [|a l IH]; cbn [find].
  - split; [discriminate|]. intros (l1 & l2 & H & _). now destruct l1.
  - destruct (f a) eqn:Ha.
    + split.
      * intros [= <-]. exists [], l. repeat split; auto.
      * intros ([|b l1] & l2 & Heq & Hx & Hl1).
        -- now injection Heq as <- _.
        -- injection Heq as <- _. inversion Hl1; subst. congruence.
    + rewrite IH. split.
      * intros (l1 & l2 & -> & Hx & Hl1). exists (a :: l1), l2. repeat split; auto.
      * intros ([|b l1] & l2 & Heq & Hx & Hl1).
        -- injection Heq as <- _. congruence.
        -- injection Heq as _ ->. inversion Hl1; subst. eauto.
Qed.

(** X2.  When the member list is answered in a run, the result is the first
    member of the list, in list order, that the name predicate accepts for
    the fetched GitHub user, and [null] when the body is not ok, has no
    members, or no member is accepted. *)
Theorem name_search_returns_first (E : Env) (p : FindParams) (h : list event)
    (r : result (option SlackUser)) (evs : list event) (d : ListResp) :
  findSlackUser E p h = (r, evs) ->
  In (EvUsersList (Resp d)) evs ->
  exists gu,
    In (EvGetByUsername (githubUsername p) (Resp gu)) evs
    /\ r = Ret (nameSearch E p gu d)
    /\ (forall m,
          r = Ret (Some m) <->
          lr_ok d = true
          /\ exists l1 l2,
               lr_members d = Some (l1 ++ m :: l2)
               /\ nameMatches E (githubName gu) (githubUsername p) m = true
               /\ Forall (fun x => nameMatches E (githubName gu) (githubUsername p) x
                                   = false) l1).
Proof.
  intros Hrun Hin. destruct (run_resolves _ _ _ Hrun) as (v & -> & HR).
  assert (Hfirst : forall gu m,
            nameSearch E p gu d = Some m <->
            lr_ok d = true
            /\ exists l1 l2,
                 lr_members d = Some (l1 ++ m :: l2)
                 /\ nameMatches E (githubName gu) (githubUsername p) m = true
                 /\ Forall (fun x => nameMatches E (githubName gu) (githubUsername p) x
                                     = false) l1).
  { intros gu m. unfold nameSearch. destruct (lr_ok d); [|split; [discriminate|easy]].
    destruct (lr_members d) as [members|].
    - rewrite find_first. split.
      + intros (l1 & l2 & -> & H1 & H2). split; [reflexivity|]. now exists l1, l2.
      + intros (_ & l1 & l2 & [= ->] & H1 & H2). now exists l1, l2.
    - split; [discriminate|]. now intros (_ & l1 & l2 & [=] & _). }
  invert_run HR; try solve [exfalso; in_events];
    match goal with
    | Hl : slack_users_list _ _ _ = Resp ?d0, Hs : nameSearch _ _ ?gu ?d0 = _ |- _ =>
        assert (d0 = d) as -> by in_events;
        exists gu; split; [in_events|]; split; [now rewrite Hs|];
        intros m; rewrite <- Hfirst, Hs; split; congruence
    end.
Qed.

Lemma name_search_returns_first_witness :
  exists gu,
    In (EvGetByUsername (lit "carol") (Resp gu))
       (snd (findSlackUser Demo.world (Demo.lookup (lit "carol")) []))
    /\ Ret (Some Demo.carol)
       = Ret (nameSearch Demo.world (Demo.lookup (lit "carol")) gu
                {| lr_ok := true; lr_members := Some Demo.members |})
    /\ (forall m,
          Ret (Some Demo.carol) = Ret (Some m) <->
          true = true
          /\ exists l1 l2,
               Some Demo.members = Some (l1 ++ m :: l2)
               /\ nameMatches Demo.world (githubName gu) (lit "carol") m = true
               /\ Forall (fun x => nameMatches Demo.world (githubName gu) (lit "carol") x
                                   = false) l1).
Proof.
  apply (@name_search_returns_first Demo.world (Demo.lookup (lit "carol")) []
           _ _ {| lr_ok := true; lr_members := Some Demo.members |} eq_refl).
  cbn. tauto.
Defined.

(** X3.  In one run every endpoint is called at most once, and the calls come
    in the order of the tiers: id lookup, GitHub user, email lookup, member
    list. *)
Theorem calls_once_in_tier_order (E : Env) (p : FindParams) (h : list event)
    (r : result (option SlackUser)) (evs : list event) :
  findSlackUser E p h = (r, evs) ->
  ascending (callRanks evs) = true /\ NoDup (callRanks evs).
Proof.
  intros Hrun. destruct (run_resolves _ _ _ Hrun) as (v & -> & HR).
  invert_run HR; cbn; (split; [reflexivity|]);
    repeat (constructor; [cbn; intuition discriminate|]); constructor.
Qed.

Lemma calls_once_in_tier_order_witness :
  ascending (callRanks (snd (findSlackUser Demo.world (Demo.lookup (lit "carol")) [])))
  = true
  /\ NoDup (callRanks (snd (findSlackUser Demo.world (Demo.lookup (lit "carol")) []))).
Proof.
  exact (@calls_once_in_tier_order Demo.world (Demo.lookup (lit "carol")) [] _ _ eq_refl).
Defined.

(** Reading the mapping at a name that every object inherits gives a
    function, which is truthy: the id lookup is made with it, and the run
    goes on when the directory does not know it. *)
Example inherited_member_is_looked_up :
  findSlackUser Demo.world (Demo.lookup (lit "constructor")) [] =
  (Ret None,
   [EvUsersInfo (JNative (lit "function Object() { [native code] }"))
      (Resp {| ur_ok := false; ur_user := None |});
    EvGetByUsername (lit "constructor") (Fail (lit "Not Found"));
    EvWarning (lit "Failed to lookup constructor: Not Found")]).
Proof. reflexivity. Qed.

(** X4.  The calls of a run carry the data of that run: the id lookup is made
    with the truthy value that reading the mapping at the user name gives (an
    entry of the mapping, or a member that the parsed value inherits or holds
    by index), the GitHub fetch with the user name, and the email lookup with
    the non-empty email of the GitHub user fetched in the same run. *)
Theorem calls_carry_run_data (E : Env) (p : FindParams) (h : list event)
    (r : result (option SlackUser)) (evs : list event) :
  findSlackUser E p h = (r, evs) ->
  (forall sid a, In (EvUsersInfo sid a) evs ->
     mappedId E p = Some (Resp sid) /\ truthy sid = true)
  /\ (forall u a, In (EvGetByUsername u a) evs -> u = githubUsername p)
  /\ (forall mail a, In (EvLookupByEmail mail a) evs ->
        mail <> []
        /\ exists gu, In (EvGetByUsername (githubUsername p) (Resp gu)) evs
                      /\ email gu = Some mail).
Proof.
  intros Hrun. destruct (run_resolves _ _ _ Hrun) as (v & -> & HR).
  assert (Ht : forall sid, mappedId E p = Some (Resp sid) -> truthy sid = true).
  { unfold mappedId. intros sid.
    destruct (userMapping p) as [[|c s]|]; try discriminate.
    destruct (JSON_parse E (c :: s)); try discriminate.
    destruct (getProperty E a (githubUsername p)) as [|[j|]]; try discriminate.
    destruct (truthy j) eqn:Hj; [|discriminate]. now intros [= <-]. }
  assert (Hn : forall m : str, nonEmpty m = true -> m <> []) by now intros [|].
  repeat split; intros;
    invert_run HR;
    first [ solve [exfalso; in_events]
          | solve [in_events]
          | solve [apply Ht; in_events]
          | solve [apply Hn; in_events]
          | solve [eexists; split; [|eassumption]; in_events]
          | solve [eexists; split; [in_events|]; in_events] ].
Qed.

Lemma calls_carry_run_data_witness :
  mappedId Demo.world (Demo.lookup (lit "constructor"))
  = Some (Resp (JNative (lit "function Object() { [native code] }")))
  /\ truthy (JNative (lit "function Object() { [native code] }")) = true.
Proof.
  apply (proj1 (@calls_carry_run_data Demo.world (Demo.lookup (lit "constructor")) []
                  _ _ eq_refl)
           (JNative (lit "function Object() { [native code] }"))
           (Resp {| ur_ok := false; ur_user := None |})).
  left. reflexivity.
Defined.

(** X5.  Every run ends with a log line that tells its outcome: one of the
    three success messages when a user is returned, and the not-found warning
    or the lookup-failure warning when [null] is returned. *)
Theorem last_event_tells_outcome (E : Env) (p : FindParams) (h : list event)
    (r : result (option SlackUser)) (evs : list event) :
  findSlackUser E p h = (r, evs) ->
  match r with
  | Ret (Some _) =>
      exists msg,
        last evs (EvWarning []) = EvInfo msg
        /\ (msg = msgManual (githubUsername p) \/ msg = msgByEmail (githubUsername p)
            \/ msg = msgByName (githubUsername p))
  | Ret None =>
      last evs (EvInfo []) = warnNotFound p
      \/ exists msg, last evs (EvInfo []) = warnLookup p msg
  | Throw _ => False
  end.
Proof.
  intros Hrun. destruct (run_resolves _ _ _ Hrun) as (v & -> & HR).
  invert_run HR; cbn [app last].
  all: try solve [eexists; split; [reflexivity|]; tauto].
  all: try solve [left; reflexivity].
  all: try solve [right; eexists; reflexivity].
Qed.

Lemma last_event_tells_outcome_witness :
  last (snd (findSlackUser Demo.world (Demo.lookup (lit "ghost")) [])) (EvInfo [])
  = warnNotFound (Demo.lookup (lit "ghost"))
  \/ exists msg,
       last (snd (findSlackUser Demo.world (Demo.lookup (lit "ghost")) [])) (EvInfo [])
       = warnLookup (Demo.lookup (lit "ghost")) msg.
Proof.
  exact (@last_event_tells_outcome Demo.world (Demo.lookup (lit "ghost")) [] _ _ eq_refl).
Defined.

(* ------------------------------------------------------------------------- *)
(** ** More on mentions *)

(** Every match reported by a scan sits at a position of the scanned text. *)
Lemma scan_hits_at (r : regex) (m : rmatch) (s : str) : forall k sn,
  In m (hits (scan r k sn s)) ->
  exists pre s' st,
    s = pre ++ s' /\ exec r (rev pre ++ sn) s' = Some st
    /\ m = mkMatch (rev pre ++ sn) s' st.
Proof.
  induction s as [|c s IH]; intros k sn.
  - destruct k; cbn [scan hits]; [|easy].
    destruct (exec r sn []) as [st|] eqn:He; cbn [hits In]; [|easy].
    intros [<-|[]]. now exists [], [], st.
  - assert (Hnext : forall k',
               In m (hits (scan r k' (c :: sn) s)) ->
               exists pre s' st,
                 c :: s = pre ++ s' /\ exec r (rev pre ++ sn) s' = Some st
                 /\ m = mkMatch (rev pre ++ sn) s' st).
    { intros k' (pre & s' & st & -> & He & ->)%IH.
      exists (c :: pre), s', st. cbn [rev]. rewrite <- !app_assoc. now cbn [app]. }
    destruct k as [|k]; cbn [scan]; [|apply Hnext].
    destruct (exec r sn (c :: s)) as [st|] eqn:He.
    + destruct (length (c :: s) - length (rest st)); cbn [hits In];
        (intros [<-|H]; [now exists [], (c :: s), st | now apply Hnext in H]).
    + cbn [hits]. apply Hnext.
Qed.

(** The text of a group, read back from what the matcher has passed over. *)
Lemma capture_text (w sn : str) :
  rev (firstn (length (rev w ++ sn) - length sn) (rev w ++ sn)) = w.
Proof.
  rewrite length_app, length_rev.
  replace (length w + length sn - length sn) with (length w) by lia.
  rewrite firstn_app, length_rev, Nat.sub_diag, firstn_O, app_nil_r.
  rewrite <- (length_rev w), firstn_all. apply rev_involutive.
Qed.

(** One attempt of the mention pattern: it needs an [@] here, and takes all
    the name characters that follow. *)
Lemma exec_mention (sn s : str) (st : mstate) :
  exec mentionPattern sn s = Some st ->
  exists w,
    s = 64%N :: w ++ rest st /\ w <> []
    /\ Forall (fun c => isMentionChar c = true) w
    /\ caps st = [w]
    /\ match rest st with c :: _ => isMentionChar c = false | [] => True end.
Proof.
  unfold exec, mentionPattern. cbn [run rest seen caps].
  destruct s as [|c s]; [discriminate|].
  unfold isChar at 1. destruct (N.eqb c 64) eqn:Hc; [|discriminate].
  apply N.eqb_eq in Hc. subst c.
  destruct (maximal_run isMentionChar s) as (w & s' & -> & Hw & Hs').
  destruct w as [|a w].
  - cbn [app]. destruct s' as [|b s']; cbn [rep]; [discriminate|].
    rewrite Hs'. discriminate.
  - erewrite rep_greedy; [|exact Hw|exact Hs'|cbn; lia|reflexivity].
    intros [= <-]. cbn [rest caps seen]. exists (a :: w). repeat split; auto.
    + discriminate.
    + cbn [app]. f_equal. exact (capture_text (a :: w) (64%N :: sn)).
Qed.

(** X6.  Every mention found in a text is an [@] followed by a non-empty name
    of letters, digits and hyphens that is not followed by another such
    character; the name is what the match captures, and the text is the part
    before the match, the match and the part after it. *)
Theorem detected_mentions_are_names (text : str) (m : rmatch) :
  In m (matchAll mentionPattern text) ->
  group1 m <> []
  /\ Forall (fun c => isMentionChar c = true) (group1 m)
  /\ m_text m = 64%N :: group1 m
  /\ text = m_before m ++ m_text m ++ m_after m
  /\ match m_after m with c :: _ => isMentionChar c = false | [] => True end.
Proof.
  unfold matchAll. intros (pre & s' & st & -> & He & ->)%scan_hits_at.
  rewrite app_nil_r in *.
  destruct (exec_sound _ _ _ He) as (_ & w0 & _ & _ & _ & Hfirst).
  destruct (exec_mention _ _ He) as (w & Hs & Hne & Hw & Hc & Hnext).
  unfold mkMatch, group1. cbn [m_text m_caps m_before m_after].
  rewrite Hc, Hfirst, rev_involutive. cbn [nth].
  assert (w0 = 64%N :: w) as ->.
  { rewrite Hs in Hfirst.
    replace (length (64%N :: w ++ rest st) - length (rest st))
      with (length (64%N :: w)) in Hfirst
      by (cbn [length]; rewrite length_app; lia).
    change (64%N :: w ++ rest st) with ((64%N :: w) ++ rest st) in Hfirst.
    now rewrite firstn_app, firstn_all, Nat.sub_diag, firstn_O, app_nil_r in Hfirst. }
  repeat split; auto. now rewrite Hs.
Qed.

Lemma detected_mentions_are_names_witness :
  group1 (RMatch (lit "@domain") [lit "domain"] (lit "user") []) <> []
  /\ Forall (fun c => isMentionChar c = true)
       (group1 (RMatch (lit "@domain") [lit "domain"] (lit "user") []))
  /\ lit "@domain" = 64%N :: lit "domain"
  /\ lit "user@domain" = lit "user" ++ lit "@domain" ++ []
  /\ True.
Proof.
  apply (@detected_mentions_are_names (lit "user@domain")
           (RMatch (lit "@domain") [lit "domain"] (lit "user") [])).
  left. reflexivity.
Defined.

(** A pattern that needs a certain first character finds nothing in a text
    that lacks it. *)
Lemma scan_without_start (r : regex) (p : N -> bool) (s : str) :
  (forall sn, exec r sn [] = None) ->
  (forall sn c s', p c = false -> exec r sn (c :: s') = None) ->
  Forall (fun c => p c = false) s ->
  forall sn, scan r 0 sn s = map Lit s.
Proof.
  intros Hnil Hcons. induction 1 as [|c s Hc _ IH]; intros sn; cbn [scan map].
  - now rewrite Hnil.
  - rewrite (Hcons sn c s Hc). now rewrite IH.
Qed.

Lemma mention_needs_at (sn : str) (c : N) (s : str) :
  N.eqb c 64 = false -> exec mentionPattern sn (c :: s) = None.
Proof.
  intros Hc. destruct (exec mentionPattern sn (c :: s)) as [st|] eqn:He; [|reflexivity].
  apply exec_mention in He as (w & [= -> _] & _). discriminate.
Qed.

(** X7.  A text without [@] is returned as it is, and nothing is looked up
    or logged. *)
Theorem text_without_at_untouched (E : Env) (p : MentionParams) (h : list event) :
  ~ In 64%N (mp_text p) ->
  processMentions E p h = (Ret (mp_text p), []).
Proof.
  intros Hno. apply processMentions_no_mention. unfold matchAll.
  rewrite (@scan_without_start mentionPattern (fun c => N.eqb c 64)).
  - clear Hno. induction (mp_text p) as [|c l IH]; [reflexivity|exact IH].
  - reflexivity.
  - intros sn c s' Hc. now apply mention_needs_at.
  - apply Forall_forall. intros c Hc. destruct (N.eqb c 64) eqn:H; [|reflexivity].
    apply N.eqb_eq in H. now subst.
Qed.

Lemma text_without_at_untouched_witness :
  processMentions Demo.offline (Demo.mentionsIn (lit "no mention here")) []
  = (Ret (lit "no mention here"), []).
Proof.
  apply (@text_without_at_untouched Demo.offline (Demo.mentionsIn (lit "no mention here")) []).
  cbn. intuition discriminate.
Defined.

Lemma mentionLoop_unresolved (E : Env) (p : MentionParams) (mentions : list rmatch) :
  (forall u h, fst (findSlackUser E {| githubUsername := u;
                                       slackToken := mp_slackToken p;
                                       userMapping := mp_userMapping p |} h)
               = Ret None) ->
  forall text h, fst (mentionLoop E p mentions text h) = Ret text.
Proof.
  intros Hnone. induction mentions as [|m ms IH]; intros text h; [reflexivity|].
  cbn [mentionLoop]. unfold bind at 1.
  specialize (Hnone (group1 m) h).
  destruct (findSlackUser E _ h) as [[[su|]|msg] e1]; cbn [fst] in Hnone; try discriminate.
  specialize (IH text (h ++ e1)). destruct (mentionLoop E p ms text (h ++ e1)).
  exact IH.
Qed.

(** X8.  When no user name resolves, whatever the events so far, every
    mention stays as written: the text is returned unchanged. *)
Theorem unresolved_mentions_stay (E : Env) (p : MentionParams) (h : list event) :
  (forall u h', fst (findSlackUser E {| githubUsername := u;
                                        slackToken := mp_slackToken p;
                                        userMapping := mp_userMapping p |} h')
                = Ret None) ->
  fst (processMentions E p h) = Ret (mp_text p).
Proof.
  intros Hnone. unfold processMentions.
  destruct (matchAll mentionPattern (mp_text p)) as [|m ms]; [reflexivity|].
  unfold bind, info.
  pose proof (mentionLoop_unresolved E p (m :: ms) Hnone (mp_text p)) as H.
  match goal with
  | |- context [mentionLoop E p (m :: ms) (mp_text p) ?h'] =>
      specialize (H h'); destruct (mentionLoop E p (m :: ms) (mp_text p) h')
  end.
  exact H.
Qed.

Lemma unresolved_mentions_stay_witness :
  fst (processMentions Demo.offline (Demo.mentionsIn (lit "hi @bob and @ann-lee")) [])
  = Ret (lit "hi @bob and @ann-lee").
Proof.
  apply (@unresolved_mentions_stay Demo.offline
           (Demo.mentionsIn (lit "hi @bob and @ann-lee")) []).
  intros u h'. reflexivity.
Defined.

(** X9.  [processMentions] never throws, and when the text has mentions its
    first log line reports how many were found. *)
Theorem processMentions_never_throws (E : Env) (p : MentionParams) (h : list event) :
  exists text' evs,
    processMentions E p h = (Ret text', evs)
    /\ match matchAll mentionPattern (mp_text p) with
       | [] => text' = mp_text p /\ evs = []
       | m :: ms =>
           exists rest,
             evs = EvInfo (lit "Found " ++ ofNat (length (m :: ms))
                           ++ lit " mention(s): "
                           ++ join (lit ", ") (map group1 (m :: ms))) :: rest
       end.
Proof.
  unfold processMentions.
  destruct (matchAll mentionPattern (mp_text p)) as [|m ms] eqn:Hm.
  - now exists (mp_text p), [].
  - unfold bind, info.
    match goal with
    | |- context [mentionLoop E p (m :: ms) (mp_text p) ?h'] =>
        destruct (mentionLoop_returns E p (m :: ms) (mp_text p) h') as (t' & e & ->)
    end.
    exists t', (EvInfo (lit "Found " ++ ofNat (length (m :: ms))
                        ++ lit " mention(s): "
                        ++ join (lit ", ") (map group1 (m :: ms))) :: e).
    split; [reflexivity|]. now exists e.
Qed.

(** A replacement text without [$] is pasted as it is. *)
Lemma getSubstitution_plain (m : rmatch) (t : str) :
  ~ In 36%N t -> getSubstitution m t = t.
Proof.
  induction t as [|c t IH]; intros Hno; [reflexivity|].
  assert (Hc : c <> 36%N) by (intros ->; apply Hno; now left).
  assert (Ht : ~ In 36%N t) by (intros H; apply Hno; now right).
  transitivity (c :: getSubstitution m t); [|now rewrite IH].
  clear IH Hno Ht.
  destruct c as [|q]; [reflexivity|].
  do 6 (try (destruct q as [q|q|]; try reflexivity)); congruence.
Qed.

(** X10.  When the Slack id holds no [$], the replacement made for a resolved
    mention puts exactly the tag [<@id>] in the place of every match of the
    mention pattern and keeps every other character. *)
Theorem tag_pasted_as_is (u : str) (su : SlackUser) (text : str) :
  ~ In 36%N (id su) ->
  replaceAll (mentionRegExp u) (slackTag su) text
  = flat_map (pasted (lit "<@" ++ id su ++ lit ">"))
      (scan (mentionRegExp u) 0 [] text).
Proof.
  intros Hno. unfold replaceAll, slackTag.
  assert (Hp : ~ In 36%N (lit "<@" ++ id su ++ lit ">")).
  { rewrite !in_app_iff. cbn. intuition discriminate. }
  induction (scan (mentionRegExp u) 0 [] text) as [|[c|m] l IH];
    cbn [substitute flat_map pasted]; [reflexivity| |]; rewrite IH.
  - reflexivity.
  - now rewrite getSubstitution_plain.
Qed.

Lemma tag_pasted_as_is_witness :
  replaceAll (mentionRegExp (lit "ann")) (slackTag Demo.ann) (lit "hi @ann!")
  = flat_map (pasted (lit "<@" ++ id Demo.ann ++ lit ">"))
      (scan (mentionRegExp (lit "ann")) 0 [] (lit "hi @ann!")).
Proof.
  apply (@tag_pasted_as_is (lit "ann") Demo.ann (lit "hi @ann!")).
  cbn. intuition discriminate.
Defined.

(* ------------------------------------------------------------------------- *)
(** ** More on image extraction and the builders *)

Lemma stripped_text (text : str) :
  textWithoutImages (extractAndConvertImages text)
  = trim (collapseRuns 0 (flat_map keptText (scan imgTagPattern 0 [] text))).
Proof.
  unfold extractAndConvertImages. cbn [textWithoutImages].
  rewrite replace_newlines_collapses. unfold replaceAll at 1.
  now rewrite substitute_empty.
Qed.

Lemma triple_detected (pre post : str) : forall k,
  noTripleFrom k (pre ++ [10; 10; 10]%N ++ post) = false.
Proof.
  induction pre as [|c pre IH]; intros k; cbn [app noTripleFrom].
  - rewrite !N.eqb_refl.
    replace (S (S (S k)) <? 3) with false by (symmetry; apply Nat.ltb_ge; lia).
    now destruct (S k <? 3), (S (S k) <? 3).
  - destruct (N.eqb c 10); [|apply IH]. cbn [app] in IH. rewrite IH.
    apply andb_false_r.
Qed.

Lemma emitRun_then (n : nat) (c : N) (s : str) :
  N.eqb c 10 = false ->
  noTripleFrom 0 (emitRun n ++ c :: s) = noTripleFrom 0 s.
Proof.
  intros Hc. destruct n as [|[|[|n]]]; cbn; now rewrite Hc.
Qed.

Lemma collapseRuns_no_triple (s : str) : forall n,
  noTripleFrom 0 (collapseRuns n s) = true.
Proof.
  induction s as [|c s IH]; intros n; cbn [collapseRuns].
  - now destruct n as [|[|[|n]]].
  - destruct (N.eqb c 10) eqn:Hc; [apply IH|].
    rewrite emitRun_then by exact Hc. apply IH.
Qed.

(** X11.  The text left after image extraction never holds three newlines in
    a row. *)
Theorem stripped_text_has_no_triple_newline (text pre post : str) :
  textWithoutImages (extractAndConvertImages text) <> pre ++ [10; 10; 10]%N ++ post.
Proof.
  rewrite stripped_text. intros Heq.
  destruct (trim_spec (collapseRuns 0 (flat_map keptText (scan imgTagPattern 0 [] text))))
    as (a & b & Hs & _).
  rewrite Heq in Hs.
  pose proof (collapseRuns_no_triple
                (flat_map keptText (scan imgTagPattern 0 [] text)) 0) as Hok.
  rewrite Hs in Hok.
  replace (a ++ (pre ++ [10; 10; 10]%N ++ post) ++ b)
    with ((a ++ pre) ++ [10; 10; 10]%N ++ (post ++ b)) in Hok
    by (rewrite <- !app_assoc; reflexivity).
  rewrite triple_detected in Hok. discriminate.
Qed.

Lemma stripped_text_has_no_triple_newline_witness :
  textWithoutImages
    (extractAndConvertImages (lit "a" ++ [10; 10]%N ++ lit "<img src='x'>"
                              ++ [10; 10]%N ++ lit "b"))
  <> lit "a" ++ [10; 10; 10]%N ++ [10%N] ++ lit "b".
Proof.
  exact (@stripped_text_has_no_triple_newline
           (lit "a" ++ [10; 10]%N ++ lit "<img src='x'>" ++ [10; 10]%N ++ lit "b")
           (lit "a") ([10%N] ++ lit "b")).
Defined.

Lemma kept_shorter (l : list piece) :
  length (flat_map keptText l) <= length (flat_map pieceText l).
Proof.
  induction l as [|[c|m] l IH]; cbn [flat_map keptText pieceText app length];
    rewrite ?length_app; lia.
Qed.

Lemma collapseRuns_shorter (s : str) : forall n,
  length (collapseRuns n s) <= n + length s.
Proof.
  assert (He : forall n, length (emitRun n) <= n).
  { intros n. unfold emitRun. destruct (3 <=? n) eqn:H.
    - apply Nat.leb_le in H. cbn. lia.
    - now rewrite repeat_length. }
  induction s as [|c s IH]; intros n; cbn [collapseRuns length].
  - specialize (He n). lia.
  - destruct (N.eqb c 10).
    + specialize (IH (S n)). lia.
    + rewrite length_app. cbn [length]. specialize (IH 0). specialize (He n). lia.
Qed.

(** X12.  The text left after image extraction is never longer than the
    input. *)
Theorem stripped_text_not_longer (text : str) :
  length (textWithoutImages (extractAndConvertImages text)) <= length text.
Proof.
  rewrite stripped_text.
  set (kept := flat_map keptText (scan imgTagPattern 0 [] text)).
  destruct (trim_spec (collapseRuns 0 kept)) as (a & b & Hs & _).
  apply (f_equal (@length N)) in Hs. rewrite !length_app in Hs.
  pose proof (collapseRuns_shorter kept 0) as H1.
  pose proof (kept_shorter (scan imgTagPattern 0 [] text)) as H2.
  rewrite (scan_partition imgTagPattern text 0 []) in H2. cbn [skipn] in H2.
  fold kept in H2. lia.
Qed.

(** X13.  Every image block comes from a recognised tag of the text; its url
    and its alt text are non-empty and hold no quote character, and the url
    stands in the tag between two quote characters after [src=]. *)
Theorem image_blocks_are_filled (text : str) (b : SlackBlock) :
  In b (imageBlocks (extractAndConvertImages text)) ->
  exists tag url alt,
    In tag (imgTags text) /\ b = ImageBlock url alt
    /\ url <> [] /\ alt <> []
    /\ Forall (fun c => notQuote c = true) url
    /\ Forall (fun c => notQuote c = true) alt
    /\ exists pre post, AttrAt (lit "src") tag pre url post.
Proof.
  rewrite imageBlocks_eq. intros (tag & Htag & Hb)%in_flat_map.
  unfold tagBlock in Hb.
  destruct (attrValue (lit "src") tag) as [url|] eqn:Hsrc; [|contradiction].
  destruct Hb as [<-|[]].
  apply attrValue_some in Hsrc as (pre & post & Hat & _).
  pose proof Hat as (nm & q1 & q2 & _ & _ & _ & _ & Hne & Hq).
  exists tag, url. eexists. split; [exact Htag|]. split; [reflexivity|].
  split; [exact Hne|].
  destruct (attrValue (lit "alt") tag) as [alt|] eqn:Halt.
  - apply attrValue_some in Halt
      as (pre' & post' & (nm' & q1' & q2' & _ & _ & _ & _ & Hne' & Hq') & _).
    repeat split; eauto.
  - repeat split; eauto; [discriminate|repeat constructor].
Qed.

Lemma image_blocks_are_filled_witness :
  exists tag url alt,
    In tag (imgTags (lit "see <img src='a.png'> here"))
    /\ ImageBlock (lit "a.png") (lit "Image") = ImageBlock url alt
    /\ url <> [] /\ alt <> []
    /\ Forall (fun c => notQuote c = true) url
    /\ Forall (fun c => notQuote c = true) alt
    /\ exists pre post, AttrAt (lit "src") tag pre url post.
Proof.
  apply (@image_blocks_are_filled (lit "see <img src='a.png'> here")).
  left. reflexivity.
Defined.

Lemma imgTag_needs_lt (sn : str) (c : N) (s : str) :
  N.eqb c 60 = false -> exec imgTagPattern sn (c :: s) = None.
Proof.
  intros Hc. unfold exec, imgTagPattern. cbn [patSeq run rest].
  unfold isChar at 1. now rewrite Hc.
Qed.

(** X14.  A text without [<] yields no image block, and its stripped text is
    the text itself with its newline runs collapsed and its ends trimmed. *)
Theorem text_without_lt_has_no_image (text : str) :
  ~ In 60%N text ->
  extractAndConvertImages text
  = {| textWithoutImages := trim (collapseRuns 0 text); imageBlocks := [] |}.
Proof.
  intros Hno.
  assert (Hscan : scan imgTagPattern 0 [] text = map Lit text).
  { apply (@scan_without_start imgTagPattern (fun c => N.eqb c 60)).
    - reflexivity.
    - intros sn c s' Hc. now apply imgTag_needs_lt.
    - apply Forall_forall. intros c Hc. destruct (N.eqb c 60) eqn:H; [|reflexivity].
      apply N.eqb_eq in H. now subst. }
  assert (Hk : flat_map keptText (map Lit text) = text).
  { clear. induction text as [|c t IH]; cbn; now rewrite ?IH. }
  assert (Hh : hits (map Lit text) = []).
  { clear. induction text as [|c t IH]; [reflexivity|exact IH]. }
  pose proof (stripped_text text) as Ht. pose proof (imageBlocks_eq text) as Hi.
  unfold imgTags, matchAll in Hi. rewrite Hscan, Hh in Hi. rewrite Hscan, Hk in Ht.
  destruct (extractAndConvertImages text) as [t i]. cbn in *. now subst.
Qed.

Lemma text_without_lt_has_no_image_witness :
  extractAndConvertImages (lit "  plain text  ")
  = {| textWithoutImages := trim (collapseRuns 0 (lit "  plain text  "));
       imageBlocks := [] |}.
Proof.
  apply (@text_without_lt_has_no_image (lit "  plain text  ")).
  cbn. intuition discriminate.
Defined.

Lemma imageBlocks_filled (text : str) (b : SlackBlock) :
  In b (imageBlocks (extractAndConvertImages text)) -> filled b.
Proof.
  rewrite imageBlocks_eq. intros (tag & _ & Hb)%in_flat_map. unfold tagBlock in Hb.
  destruct (attrValue (lit "src") tag) as [url|] eqn:Hsrc; [|contradiction].
  destruct Hb as [<-|[]]. cbn [filled]. split.
  - apply attrValue_some in Hsrc
      as (pre & post & (nm & q1 & q2 & _ & _ & _ & _ & Hne & _) & _). exact Hne.
  - destruct (attrValue (lit "alt") tag) as [alt|] eqn:Halt; [|discriminate].
    apply attrValue_some in Halt
      as (pre & post & (nm & q1 & q2 & _ & _ & _ & _ & Hne & _) & _). exact Hne.
Qed.

(** X15.  No builder emits an empty text: in every block of every builder the
    section text, the context text, and the url and alt text of an image are
    non-empty. *)
Theorem builders_emit_filled_blocks (body a b c d e f : str) (x : SlackBlock) :
  In x (buildCommentBlocks body a b c d)
  \/ In x (buildReviewRequestBlocks a b c body d e f)
  \/ In x (buildReviewBlocks a b body c d e f) ->
  filled x.
Proof.
  assert (Hne : forall t : str, nonEmpty t = true -> t <> []) by now intros [|].
  unfold buildCommentBlocks, buildReviewRequestBlocks, buildReviewBlocks. cbv zeta.
  rewrite !in_app_iff. cbn [In].
  intros [[[Hs|Hi]|[<-|[]]]|[[[Hs|Hi]|[<-|[]]]|[[Hs|Hi]|[<-|[]]]]].
  - destruct (nonEmpty (textWithoutImages (extractAndConvertImages body))) eqn:Hn;
      [|contradiction].
    destruct Hs as [<-|[]]. cbn. now apply Hne.
  - now apply imageBlocks_filled in Hi.
  - cbn. discriminate.
  - destruct Hs as [<-|[]]. cbn. discriminate.
  - now apply imageBlocks_filled in Hi.
  - cbn. discriminate.
  - destruct Hs as [<-|[]]. cbn [filled].
    destruct (nonEmpty (textWithoutImages (extractAndConvertImages body)));
      destruct a; discriminate.
  - now apply imageBlocks_filled in Hi.
  - cbn. discriminate.
Qed.

Lemma builders_emit_filled_blocks_witness :
  filled (SectionBlock (lit ":ok: *Approved*")).
Proof.
  apply (@builders_emit_filled_blocks [] (lit ":ok:") (lit "Approved") (lit "u")
           (lit "t") (lit "r") (lit "bob")).
  right. right. left. reflexivity.
Defined.

(* ------------------------------------------------------------------------- *)
(** ** Review comments *)

Lemma bodies_spec (cs : list ReviewComment) (b : str) :
  In b (bodies cs) <-> b <> [] /\ exists c, In c cs /\ body c = Some b.
Proof.
  induction cs as [|c cs IH]; cbn [bodies In].
  - split; [easy|]. now intros (_ & c & [] & _).
  - destruct (body c) as [[|x t]|] eqn:Hb.
    + rewrite IH. split.
      * intros (Hne & c' & Hin & Hc'). eauto.
      * intros (Hne & c' & [<-|Hin] & Hc'); [congruence|eauto].
    + cbn [In]. rewrite IH. split.
      * intros [<-|(Hne & c' & Hin & Hc')]; [|eauto]. split; [discriminate|eauto].
      * intros (Hne & c' & [<-|Hin] & Hc'); [left; congruence|right; eauto].
    + rewrite IH. split.
      * intros (Hne & c' & Hin & Hc'). eauto.
      * intros (Hne & c' & [<-|Hin] & Hc'); [congruence|eauto].
Qed.

Lemma bodies_nonempty (cs : list ReviewComment) :
  Forall (fun b => b <> []) (bodies cs).
Proof. apply Forall_forall. now intros b [H _]%bodies_spec. Qed.

Lemma bodies_nil (cs : list ReviewComment) :
  bodies cs = [] <-> Forall (fun c => truthyS (body c) = false) cs.
Proof.
  induction cs as [|c cs IH]; cbn [bodies].
  - split; constructor.
  - destruct (body c) as [[|x t]|] eqn:Hb.
    + rewrite IH. split; [constructor; [now rewrite Hb|assumption]|now inversion 1].
    + split; [discriminate|]. inversion 1 as [|? ? Hc]. rewrite Hb in Hc. discriminate.
    + rewrite IH. split; [constructor; [now rewrite Hb|assumption]|now inversion 1].
Qed.

Lemma join_cons (sep x : str) (l : list str) :
  join sep (x :: l) = match l with [] => x | _ :: _ => x ++ sep ++ join sep l end.
Proof. reflexivity. Qed.

Lemma join_holds (sep b : str) (l : list str) :
  In b l -> exists pre post, join sep l = pre ++ b ++ post.
Proof.
  induction l as [|x l IH]; [easy|]. rewrite join_cons. intros [<-|Hin].
  - destruct l; [exists [], []; now rewrite app_nil_r|].
    now exists [], (sep ++ join sep (s :: l)).
  - destruct (IH Hin) as (pre & post & Heq). destruct l as [|y l]; [easy|].
    rewrite Heq. exists (x ++ sep ++ pre), post. now rewrite <- !app_assoc.
Qed.

Lemma join_nil (sep : str) (l : list str) :
  Forall (fun b => b <> []) l -> (join sep l = [] <-> l = []).
Proof.
  intros Hl. split; [|now intros ->].
  destruct l as [|x l]; [reflexivity|]. inversion Hl as [|? ? Hx _]; subst.
  rewrite join_cons. destruct l; [easy|]. destruct x; [easy|discriminate].
Qed.

Section ReviewCommentFacts.

Variable ask : list event -> str -> str -> str -> str -> api (option (list ReviewComment)).
Variable p : ReviewParams.
Variable h : list event.

Lemma fetchReviewComments_run :
  fetchReviewComments ask p h =
  match ask h (owner p) (repo p) (prNumber p) (reviewId p) with
  | Fail msg =>
      (Ret [], [EvWarning (lit "Failed to fetch review comments: " ++ msg)])
  | Resp (Some (c :: l)) =>
      (Ret (join [10; 10]%N (bodies (c :: l))),
       [EvInfo (checkMark ++ lit " Fetched " ++ ofNat (length (c :: l))
                ++ lit " review comment(s)")])
  | Resp _ => (Ret [], [])
  end.
Proof.
  unfold fetchReviewComments, bind, tryCatch, request, info, warning, ret.
  destruct (ask h (owner p) (repo p) (prNumber p) (reviewId p)) as [msg|[[|c l]|]];
    reflexivity.
Qed.

(** X16.  [fetchReviewComments] never throws and logs at most one line; when
    the call fails the result is the empty string and the line is a warning
    that carries the error. *)
Theorem fetchReviewComments_never_throws :
  (exists s evs, fetchReviewComments ask p h = (Ret s, evs) /\ length evs <= 1)
  /\ forall msg,
       ask h (owner p) (repo p) (prNumber p) (reviewId p) = Fail msg ->
       fetchReviewComments ask p h
       = (Ret [], [EvWarning (lit "Failed to fetch review comments: " ++ msg)]).
Proof.
  rewrite fetchReviewComments_run. split.
  - destruct (ask h (owner p) (repo p) (prNumber p) (reviewId p)) as [msg|[[|c l]|]];
      eexists _, _; (split; [reflexivity|cbn; lia]).
  - now intros msg ->.
Qed.

(** X17.  When the call is answered, the result is the non-empty bodies of
    the comments, in order, joined by blank lines: it is empty exactly when no
    comment has a non-empty body, every non-empty body occurs in it, and
    nothing is logged exactly when there is no comment. *)
Theorem fetchReviewComments_joins_bodies (data : option (list ReviewComment)) :
  ask h (owner p) (repo p) (prNumber p) (reviewId p) = Resp data ->
  let cs := match data with Some l => l | None => [] end in
  exists s evs,
    fetchReviewComments ask p h = (Ret s, evs)
    /\ s = join [10; 10]%N (bodies cs)
    /\ (s = [] <-> Forall (fun c => truthyS (body c) = false) cs)
    /\ (forall c b, In c cs -> body c = Some b -> b <> [] ->
          exists pre post, s = pre ++ b ++ post)
    /\ (evs = [] <-> cs = []).
Proof.
  intros Ha. cbv zeta. rewrite fetchReviewComments_run, Ha.
  assert (Hgen : forall cs : list ReviewComment,
             (join [10; 10]%N (bodies cs) = []
              <-> Forall (fun c => truthyS (body c) = false) cs)
             /\ (forall c b, In c cs -> body c = Some b -> b <> [] ->
                   exists pre post, join [10; 10]%N (bodies cs) = pre ++ b ++ post)).
  { intros cs. split.
    - rewrite (join_nil _ (bodies_nonempty cs)). apply bodies_nil.
    - intros c b Hin Hb Hne. apply join_holds. apply bodies_spec. eauto. }
  destruct data as [[|c l]|]; eexists _, _; (split; [reflexivity|]);
    (split; [reflexivity|]).
  - destruct (Hgen []) as [H1 H2]. repeat split; auto; apply H1.
  - destruct (Hgen (c :: l)) as [H1 H2]. repeat split; auto; try apply H1; discriminate.
  - destruct (Hgen []) as [H1 H2]. repeat split; auto; apply H1.
Qed.

End ReviewCommentFacts.

Lemma fetchReviewComments_joins_bodies_witness :
  exists s evs,
    fetchReviewComments
      (fun _ _ _ _ _ =>
         Resp (Some [ {| body := Some (lit "first") |}; {| body := None |};
                      {| body := Some [] |}; {| body := Some (lit "second") |} ]))
      {| reviewId := lit "7"; prNumber := lit "12"; owner := lit "o"; repo := lit "r" |}
      []
    = (Ret s, evs)
    /\ s = lit "first" ++ [10; 10]%N ++ lit "second".
Proof.
  destruct (@fetchReviewComments_joins_bodies
              (fun _ _ _ _ _ =>
                 Resp (Some [ {| body := Some (lit "first") |}; {| body := None |};
                              {| body := Some [] |}; {| body := Some (lit "second") |} ]))
              {| reviewId := lit "7"; prNumber := lit "12"; owner := lit "o";
                 repo := lit "r" |}
              [] _ eq_refl) as (s & evs & Hrun & Hs & _).
  exists s, evs. split; [exact Hrun|exact Hs].
Defined.

(* ------------------------------------------------------------------------- *)
(** ** The diff check *)

Module CheckFileChangedFacts.
Import CheckFileChanged.

Lemma filter_first (A : Type) (f : A -> bool) (l : list A) (x : A) (t : list A) :
  filter f l = x :: t ->
  exists l1 l2, l = l1 ++ x :: l2 /\ f x = true /\ Forall (fun y => f y = false) l1.
Proof.
  induction l as [|a l IH]; cbn [filter]; [discriminate|].
  destruct (f a) eqn:Ha.
  - intros [= <- _]. exists [], l. repeat split; auto.
  - intros (l1 & l2 & -> & Hx & Hl1)%IH. exists (a :: l1), l2. repeat split; auto.
Qed.

Lemma isTarget_spec (filePath : str) (x : DiffFile) :
  isTarget filePath x = true <-> to x = Some filePath.
Proof.
  unfold isTarget. destruct (to x) as [t|]; [|easy].
  rewrite str_eqb_eq. split; congruence.
Qed.

(** X18.  On a pull-request event the script never throws, whatever the
    request and the parser do, and sets each of its two outputs exactly once;
    [hasBeenUpdated] is always a boolean.  Without a pull request it throws
    before any output is set. *)
Theorem script_sets_both_outputs_once (w : World) (filePath : str) :
  match diff_url w with
  | Some _ =>
      exists steps b,
        script w filePath = Done steps
        /\ timesSet (lit "justBeenCreated") steps = 1
        /\ timesSet (lit "hasBeenUpdated") steps = 1
        /\ output (lit "hasBeenUpdated") steps = Some (OutBool b)
  | None => exists msg, script w filePath = Thrown msg
  end.
Proof.
  unfold script. destruct (diff_url w) as [url|]; [|eauto].
  destruct (github_request w url) as [err|data].
  { eexists _, _. repeat split. }
  destruct (parse w _) as [err|parsed].
  { eexists _, _. repeat split. }
  destruct (filter (isTarget filePath) _) as [|file t];
    eexists _, _; repeat split.
Qed.

(** X19.  [hasBeenUpdated] is set to true exactly when the request and the
    parser both answer and the parsed list has an entry whose [to] is the file
    path; [justBeenCreated] is then the [new] flag of the first such entry,
    and no warning is logged. *)
Theorem updated_iff_path_in_diff (w : World) (filePath url : str)
    (steps : list step) :
  diff_url w = Some url ->
  script w filePath = Done steps ->
  (output (lit "hasBeenUpdated") steps = Some (OutBool true) <->
   exists data parsed file,
     github_request w url = Resp data
     /\ parse w (match data with Some (c :: d) => c :: d | _ => [] end) = Resp (Some parsed)
     /\ In file parsed /\ to file = Some filePath)
  /\ (output (lit "hasBeenUpdated") steps = Some (OutBool true) ->
      exists data parsed l1 file l2,
        github_request w url = Resp data
        /\ parse w (match data with Some (c :: d) => c :: d | _ => [] end)
           = Resp (Some parsed)
        /\ parsed = l1 ++ file :: l2
        /\ to file = Some filePath
        /\ Forall (fun x => to x <> Some filePath) l1
        /\ output (lit "justBeenCreated") steps
           = Some (match new file with Some b => OutBool b | None => OutUndefined end)
        /\ forall msg, ~ In (Warning msg) steps).
Proof.
  intros Hurl. unfold script. rewrite Hurl.
  destruct (github_request w url) as [err|data].
  { intros [= <-]. split; [split|]; try discriminate.
    now intros (? & ? & ? & [=] & _). }
  destruct (parse w _) as [err|parsed] eqn:Hp.
  { intros [= <-]. split; [split|]; try discriminate.
    intros (d' & ps & f & [= <-] & Hp' & _). rewrite Hp in Hp'. discriminate. }
  destruct (filter (isTarget filePath) _) as [|file t] eqn:Hf; intros [= <-].
  - split; [split|]; try discriminate.
    intros (data' & parsed' & file & [= <-] & Hp' & Hin & Hto).
    rewrite Hp in Hp'. injection Hp' as ->.
    assert (In file (filter (isTarget filePath) parsed'))
      by (apply filter_In; split; [assumption|now apply isTarget_spec]).
    rewrite Hf in H. contradiction.
  - destruct parsed as [parsed|]; [|discriminate].
    apply filter_first in Hf as (l1 & l2 & -> & Hx & Hl1).
    apply isTarget_spec in Hx.
    assert (Hl1' : Forall (fun x => to x <> Some filePath) l1).
    { eapply Forall_impl; [|exact Hl1]. cbn. intros x Hx' Hto.
      apply isTarget_spec in Hto. congruence. }
    split; [split|].
    + intros _. exists data, (l1 ++ file :: l2), file. repeat split; auto.
      apply in_elt.
    + reflexivity.
    + intros _. exists data, (l1 ++ file :: l2), l1, file, l2. repeat split; auto.
      intros msg [H|[H|[]]]; discriminate.
Qed.

Lemma updated_iff_path_in_diff_witness :
  exists data parsed l1 file l2,
    github_request demoWorld (lit "https://example.test/pull/1.diff") = Resp data
    /\ parse demoWorld (match data with Some (c :: d) => c :: d | _ => [] end)
       = Resp (Some parsed)
    /\ parsed = l1 ++ file :: l2
    /\ to file = Some (lit "CHANGELOG.md")
    /\ Forall (fun x => to x <> Some (lit "CHANGELOG.md")) l1
    /\ output (lit "justBeenCreated")
         [SetOutput (lit "justBeenCreated") (OutBool true);
          SetOutput (lit "hasBeenUpdated") (OutBool true)]
       = Some (match new file with Some b => OutBool b | None => OutUndefined end)
    /\ forall msg,
         ~ In (Warning msg)
             [SetOutput (lit "justBeenCreated") (OutBool true);
              SetOutput (lit "hasBeenUpdated") (OutBool true)].
Proof.
  apply (proj2 (@updated_iff_path_in_diff demoWorld (lit "CHANGELOG.md") _ _
                  eq_refl eq_refl)).
  reflexivity.
Defined.

(** X20.  A warning is logged exactly when the request or the parser fails,
    and then both outputs are set to false. *)
Theorem warning_iff_failure (w : World) (filePath url : str) (steps : list step) :
  diff_url w = Some url ->
  script w filePath = Done steps ->
  ((exists msg, In (Warning msg) steps) <->
   (exists err, github_request w url = Fail err)
   \/ exists data err,
        github_request w url = Resp data
        /\ parse w (match data with Some (c :: d) => c :: d | _ => [] end) = Fail err)
  /\ ((exists msg, In (Warning msg) steps) ->
      output (lit "justBeenCreated") steps = Some (OutBool false)
      /\ output (lit "hasBeenUpdated") steps = Some (OutBool false)).
Proof.
  intros Hurl. unfold script. rewrite Hurl.
  destruct (github_request w url) as [err|data].
  { intros [= <-]. split; [split|]; [eauto| |split; reflexivity].
    intros _. eexists. left. reflexivity. }
  destruct (parse w _) as [err|parsed] eqn:Hp.
  { intros [= <-]. split; [split|]; [eauto| |split; reflexivity].
    intros _. eexists. left. reflexivity. }
  assert (Hno : ~ ((exists err, Resp data = Fail err :> api (option str))
                   \/ exists data' err,
                        Resp data = Resp data'
                        /\ parse w (match data' with Some (c :: d) => c :: d | _ => [] end)
                           = Fail err)).
  { intros [[err [=]]|(data' & err & [= <-] & H)]. congruence. }
  destruct (filter (isTarget filePath) _) as [|file t]; intros [= <-].
  - split; [split|]; try tauto;
      intros (msg & [H|[H|[]]]); discriminate.
  - split; [split|]; try tauto;
      intros (msg & [H|[H|[]]]); discriminate.
Qed.

Lemma warning_iff_failure_witness :
  output (lit "justBeenCreated") (failed (lit "HttpError: Not Found"))
  = Some (OutBool false)
  /\ output (lit "hasBeenUpdated") (failed (lit "HttpError: Not Found"))
     = Some (OutBool false).
Proof.
  apply (proj2 (@warning_iff_failure brokenWorld (lit "any/path") _ _ eq_refl eq_refl)).
  eexists. left. reflexivity.
Defined.

End CheckFileChangedFacts.
